(** * analytics-lib: pipeline components, chaining and validation

    A shallow embedding of [core/decorators.py] and [core/orchestrator.py].

    Python objects live in a store indexed by references; an attribute
    assignment is an update of the store at the reference, so two names
    for one object see each other's writes.  Exceptions are a result
    constructor; an exception leaves the store (and the orchestrator)
    as it was when it was raised.  The two [while] loops take fuel. *)

From stdpp Require Import gmap strings list fin_maps.

Local Open Scope string_scope.
Local Open Scope nat_scope.
Local Open Scope list_scope.
Set Warnings "-register-all".

(** ** Values, exceptions, results *)

Definition loc := positive.

(** The Python values the library handles without looking inside. *)
Inductive value :=
  | VNone
  | VStr (s : string)
  | VTuple (vs : list value)
  | VList (vs : list value)
  | VDict (kvs : list (string * value))
  | VObj (l : loc).

Inductive exn :=
  | ValueError (msg : string)
  | KeyError (key : string)
  | IndexError (msg : string)
  | Exception (msg : string).

(** [Stuck] is a read through a reference that holds no object (Python
    cannot produce one); [Timeout] is a loop that ran out of fuel. *)
Inductive result (A : Type) :=
  | Ok (a : A)
  | Raise (e : exn)
  | Stuck
  | Timeout.
Arguments Ok {A} a.
Arguments Raise {A} e.
Arguments Stuck {A}.
Arguments Timeout {A}.

Definition is_raise {A} (r : result A) : Prop :=
  match r with Raise _ => True | _ => False end.

Definition returns {A} (r : result A) : Prop :=
  match r with Ok _ | Raise _ => True | _ => False end.

(** Code that mutates a state [S] and may raise: the state reached when
    an exception is raised is kept (Python does not roll back). *)
Definition M (S A : Type) : Type := S → result A * S.

Global Instance M_ret {S} : MRet (M S) := λ A a s, (Ok a, s).

Global Instance M_bind {S} : MBind (M S) := λ A B k m s,
  match m s with
  | (Ok a, s') => k a s'
  | (Raise e, s') => (Raise e, s')
  | (Stuck, s') => (Stuck, s')
  | (Timeout, s') => (Timeout, s')
  end.

Definition raise {S A} (e : exn) : M S A := λ s, (Raise e, s).
Definition stuck {S A} : M S A := λ s, (Stuck, s).
Definition timeout {S A} : M S A := λ s, (Timeout, s).
Definition get {S} : M S S := λ s, (Ok s, s).
Definition modify {S} (f : S → S) : M S unit := λ s, (Ok tt, f s).

(** ** core/decorators.py *)

Module Decorators.

(** A reference to a function object. *)
Definition fref := positive.

(** The attribute a subclass adds to [PipelineComponent]. *)
Inductive subclass :=
  | Base
  | SourceComponent (source_type : string)
  | TransformComponent
  | SinkComponent (sink_type : string).

Record PipelineComponent := {
  name : string;
  component_type : string;
  func : fref;
  config : value;
  next : option loc;
  previous : option loc;
  cls : subclass
}.

Definition set_next (n : option loc) (c : PipelineComponent) :=
  {| name := name c; component_type := component_type c; func := func c;
     config := config c; next := n; previous := previous c; cls := cls c |}.

Definition set_previous (p : option loc) (c : PipelineComponent) :=
  {| name := name c; component_type := component_type c; func := func c;
     config := config c; next := next c; previous := p; cls := cls c |}.

Abbreviation heap := (gmap loc PipelineComponent).

(** A caller-supplied work function: the function object it is, its
    [__name__], and what a call does.  A call runs arbitrary code on the
    store: it may write or create components, return a value, raise, or
    not return ([Timeout]). *)
Record PyFunc := {
  fid : fref;
  fname : string;
  body : list value → list (string * value) → heap → result value * heap
}.

(** Attribute reads through a reference. *)
Definition next_of (h : heap) (l : loc) : option (option loc) := next <$> h !! l.
Definition previous_of (h : heap) (l : loc) : option (option loc) := previous <$> h !! l.
Definition type_of (h : heap) (l : loc) : option string := component_type <$> h !! l.
Definition name_of (h : heap) (l : loc) : option string := name <$> h !! l.

(** [PipelineComponent.__init__]: [next] and [previous] start as [None]. *)
Definition init (nm ty : string) (f : fref) (cfg : value) (k : subclass) :=
  {| name := nm; component_type := ty; func := f; config := cfg;
     next := None; previous := None; cls := k |}.

(** [self >> other]: [self.next = other; other.previous = self; return other].
    The two assignments are made in this order on the one store, so
    [self >> self] writes both fields of the same object. *)
Definition rshift (self other : loc) (h : heap) : loc * heap :=
  let h1 := alter (set_next (Some other)) self h in
  let h2 := alter (set_previous (Some self)) other h1 in
  (other, h2).

(** [self.__rrshift__(other)]: [other.next = self; self.previous = other;
    return self]. *)
Definition rrshift (self other : loc) (h : heap) : loc * heap :=
  let h1 := alter (set_next (Some self)) other h in
  let h2 := alter (set_previous (Some other)) self h1 in
  (self, h2).

(** [get_first_component]: follow [previous] while it is not [None].
    A component object is always truthy (the class defines neither
    [__bool__] nor [__len__]), so the loop test is a test against [None]. *)
Fixpoint get_first_component (fuel : nat) (h : heap) (current : loc) : result loc :=
  match h !! current with
  | None => Stuck
  | Some c =>
      match previous c with
      | None => Ok current
      | Some p =>
          match fuel with
          | O => Timeout
          | S fuel' => get_first_component fuel' h p
          end
      end
  end.

(** *** Chains in the store *)

(** [segment h p l]: the objects at [l] are linked one after the other,
    the first one having [p] before it and the last one nothing after. *)
Fixpoint segment (h : heap) (p : option loc) (l : list loc) : Prop :=
  match l with
  | [] => True
  | x :: r =>
      previous_of h x = Some p ∧ next_of h x = Some (head r) ∧ segment h (Some x) r
  end.

(** A chain: a non-empty segment with nothing before its head. *)
Definition chain (h : heap) (l : list loc) : Prop :=
  l ≠ [] ∧ segment h None l.

(** Every [next]/[previous] pair of the store agrees. *)
Definition consistent (h : heap) : Prop :=
  ∀ a b, next_of h a = Some (Some b) ↔ previous_of h b = Some (Some a).

(** What a link never writes: every attribute but [next] and [previous]. *)
Definition payload (c : PipelineComponent) : string * string * fref * value * subclass :=
  (name c, component_type c, func c, config c, cls c).

(** The [component_type] strings along a list of references. *)
Definition kind (h : heap) (l : loc) : string := default "" (type_of h l).
Definition kinds (h : heap) (l : list loc) : list string := kind h <$> l.

(** A sequence of [a >> b] statements, run from left to right. *)
Definition links (ops : list (loc * loc)) (h : heap) : heap :=
  foldl (λ h ab, (rshift ab.1 ab.2 h).2) h ops.

(** Each [a >> b] of the sequence finds [a] without a successor and [b]
    without a predecessor. *)
Fixpoint open_ends (h : heap) (ops : list (loc * loc)) : Prop :=
  match ops with
  | [] => True
  | ab :: rest =>
      next_of h ab.1 = Some None ∧ previous_of h ab.2 = Some None
      ∧ open_ends (rshift ab.1 ab.2 h).2 rest
  end.

(** *** The decorators

    The state of a construction: the store, and the calls made to work
    functions so far (oldest first). *)
Record call := { callee : PyFunc; call_args : list value; call_kwargs : list (string * value) }.

Definition the_call (f : PyFunc) (args : list value) (kwargs : list (string * value)) : call :=
  {| callee := f; call_args := args; call_kwargs := kwargs |}.

Record World := { objects : heap; calls : list call }.

(** The library calls a work function: the function runs on the store,
    and the call is entered in the log. *)
Definition invoke (f : PyFunc) (args : list value) (kwargs : list (string * value))
  : M World value := λ w,
  let '(r, h) := body f args kwargs (objects w) in
  (r, {| objects := h; calls := calls w ++ [the_call f args kwargs] |}).

Definition new (c : PipelineComponent) : M World loc := λ w,
  let l := fresh (dom (objects w)) in
  (Ok l, {| objects := <[l := c]> (objects w); calls := calls w |}).

(** The wrapper made by [source(source_type)(func)], called with
    positional arguments [args] and keyword arguments [kwargs]. *)
Definition source (source_type : string) (f : PyFunc)
    (args : list value) (kwargs : list (string * value)) : M World loc :=
  cfg ← invoke f args kwargs;
  new (init (fname f) "source" (fid f) cfg (SourceComponent source_type)).

(** The wrapper made by [transform(func)]. *)
Definition transform (f : PyFunc)
    (args : list value) (kwargs : list (string * value)) : M World loc :=
  new (init (fname f) "transform" (fid f)
         (VDict [("args", VTuple args); ("kwargs", VDict kwargs)]) TransformComponent).

(** The wrapper made by [sink(sink_type)(func)]. *)
Definition sink (sink_type : string) (f : PyFunc)
    (args : list value) (kwargs : list (string * value)) : M World loc :=
  cfg ← invoke f args kwargs;
  new (init (fname f) "sink" (fid f) cfg (SinkComponent sink_type)).

(** [PipelineComponent.__call__]: [return self.func(...)] with the
    arguments of the call; [code] gives the function a reference
    denotes. *)
Definition call_component (code : fref → option PyFunc) (self : loc)
    (args : list value) (kwargs : list (string * value)) : M World value := λ w,
  match objects w !! self with
  | Some c =>
      match code (func c) with
      | Some f => invoke f args kwargs w
      | None => (Stuck, w)
      end
  | None => (Stuck, w)
  end.

(** What the decorators make of a function [f]: a component named after
    [f], holding [f], of type [ty] and class [k], with config [cfg] and
    no neighbour. *)
Definition made (c : PipelineComponent) (f : PyFunc) (ty : string)
    (cfg : value) (k : subclass) : Prop :=
  name c = fname f ∧ component_type c = ty ∧ func c = fid f
  ∧ config c = cfg ∧ cls c = k ∧ next c = None ∧ previous c = None.

(** The links of [x0 >> x1 >> ... >> xn], in the order Python makes them:
    each [>>] returns its right operand, which is the left operand of the
    next one. *)
Definition chained (l : list loc) : list (loc * loc) := zip l (tail l).

(** A component as [__init__] leaves it: no successor, no predecessor. *)
Definition unlinked_at (h : heap) (x : loc) : Prop :=
  next_of h x = Some None ∧ previous_of h x = Some None.

(** [a >> b] during a construction. *)
Definition link (a b : loc) : M World loc := λ w,
  let '(r, h) := rshift a b (objects w) in
  (Ok r, {| objects := h; calls := calls w |}).

End Decorators.

(** ** core/orchestrator.py *)

Module Orchestrator.
Import Decorators.

Abbreviation entry := (gmap string value).

Record PipelineOrchestrator := {
  components : list loc;
  execution_graph : gmap string entry;
  validate_rules : gmap string (list string)
}.

(** [PipelineOrchestrator.__init__] *)
Definition default_rules : gmap string (list string) :=
  <["source" := ["transform"; "sink"]]>
  (<["transform" := ["transform"; "sink"]]>
  (<["sink" := []]> ∅)).

Definition new_orchestrator : PipelineOrchestrator :=
  {| components := []; execution_graph := ∅; validate_rules := default_rules |}.

Definition append (c : loc) (o : PipelineOrchestrator) :=
  {| components := components o ++ [c];
     execution_graph := execution_graph o;
     validate_rules := validate_rules o |}.

Definition set_graph (k : string) (e : entry) (o : PipelineOrchestrator) :=
  {| components := components o;
     execution_graph := <[k := e]> (execution_graph o);
     validate_rules := validate_rules o |}.

Abbreviation Orch := (M PipelineOrchestrator).

Definition deref (h : heap) (l : loc) : Orch PipelineComponent :=
  match h !! l with
  | Some c => mret c
  | None => stuck
  end.

Definition invalid_sequence (p c : string) : string :=
  "Invalid pipeline sequence: " +:+ p +:+ " cannot be followed by " +:+ c.

(** [_validate_connection(prev, current)] *)
Definition _validate_connection (h : heap) (prev current : loc) : Orch unit :=
  p ← deref h prev;
  c ← deref h current;
  o ← get;
  match validate_rules o !! component_type p with
  | None => raise (KeyError (component_type p))
  | Some allowed =>
      if decide (component_type c ∈ allowed) then mret tt
      else raise (ValueError (invalid_sequence (component_type p) (component_type c)))
  end.

(** The [while current:] loop of [validate_pipeline]. *)
Fixpoint walk (fuel : nat) (h : heap) (current : option loc) : Orch unit :=
  match current with
  | None => mret tt
  | Some cur =>
      match fuel with
      | O => timeout
      | S fuel' =>
          c ← deref h cur;
          match previous c with
          | Some p => _validate_connection h p cur
          | None => mret tt
          end;;
          modify (append cur);;
          walk fuel' h (next c)
      end
  end.

Definition must_start_with_source : exn :=
  ValueError "Pipeline must start with a source component".
Definition must_end_with_sink : exn :=
  ValueError "Pipeline must end with a sink component".

(** [validate_pipeline(entry_point)] *)
Definition validate_pipeline (fuel : nat) (h : heap) (entry_point : loc) : Orch unit :=
  first_component ←
    (λ o, (get_first_component fuel h entry_point, o));
  c ← deref h first_component;
  if decide (component_type c ≠ "source") then raise must_start_with_source
  else
    walk fuel h (Some first_component);;
    o ← get;
    match last (components o) with
    | None => raise (IndexError "list index out of range")
    | Some l =>
        lc ← deref h l;
        if decide (component_type lc ≠ "sink") then raise must_end_with_sink
        else mret tt
    end.

(** The record stored for one component by [build_execution_graph]. *)
Definition graph_entry (h : heap) (l : loc) (c : PipelineComponent) : Orch entry :=
  nxt ← match next c with
        | Some n => nc ← deref h n; mret (VStr (name nc))
        | None => mret VNone
        end;
  mret (<["type" := VStr (component_type c)]>
        (<["next" := nxt]>
        (<["config" := config c]>
        (<["component" := VObj l]> ∅)))).

Fixpoint build_loop (h : heap) (cs : list loc) : Orch unit :=
  match cs with
  | [] => mret tt
  | l :: rest =>
      c ← deref h l;
      e ← graph_entry h l c;
      modify (set_graph (name c) e);;
      build_loop h rest
  end.

(** [build_execution_graph()] *)
Definition build_execution_graph (h : heap) : Orch (gmap string entry) :=
  o ← get;
  build_loop h (components o);;
  o' ← get;
  mret (execution_graph o').

(** *** The walk, read off the component types

    [validate_pipeline] looks at nothing but the [component_type] strings
    along the chain.  The functions below run it on those strings: they
    give the outcome and the number of components appended. *)

Definition extend (o : PipelineOrchestrator) (visited : list loc) :=
  {| components := components o ++ visited;
     execution_graph := execution_graph o;
     validate_rules := validate_rules o |}.

Definition check_connection (rules : gmap string (list string))
    (prev : option string) (k : string) : result unit :=
  match prev with
  | None => Ok tt
  | Some p =>
      match rules !! p with
      | None => Raise (KeyError p)
      | Some allowed =>
          if decide (k ∈ allowed) then Ok tt
          else Raise (ValueError (invalid_sequence p k))
      end
  end.

Fixpoint walk_kinds (rules : gmap string (list string))
    (prev : option string) (ks : list string) : result unit * nat :=
  match ks with
  | [] => (Ok tt, 0)
  | k :: r =>
      match check_connection rules prev k with
      | Ok _ => let '(res, n) := walk_kinds rules (Some k) r in (res, S n)
      | Raise e => (Raise e, 0)
      | Stuck => (Stuck, 0)
      | Timeout => (Timeout, 0)
      end
  end.

Definition validate_kinds (rules : gmap string (list string))
    (ks : list string) : result unit * nat :=
  match ks with
  | [] => (Stuck, 0)
  | k :: _ =>
      if decide (k ≠ "source") then (Raise must_start_with_source, 0)
      else
        match walk_kinds rules None ks with
        | (Ok _, n) =>
            (if decide (last ks ≠ Some "sink") then Raise must_end_with_sink
             else Ok tt, n)
        | other => other
        end
  end.

(** *** The structural rules, as the specification words them *)

(** The allowed-successor table: Source → {Transform, Sink},
    Transform → {Transform, Sink}, Sink → {}. *)
Definition allowed_successor (p c : string) : Prop :=
  (p = "source" ∨ p = "transform") ∧ (c = "transform" ∨ c = "sink").

Global Instance allowed_successor_dec p c : Decision (allowed_successor p c) :=
  ltac:(unfold allowed_successor; apply _).

(** The keys of the table of [__init__]. *)
Definition known (p : string) : Prop := p = "source" ∨ p = "transform" ∨ p = "sink".

(** The first adjacent pair, walking forward from a stage of kind [p],
    that the table does not allow. *)
Fixpoint first_bad_pair (p : string) (ks : list string) : option (string * string) :=
  match ks with
  | [] => None
  | k :: r =>
      if decide (allowed_successor p k) then first_bad_pair k r else Some (p, k)
  end.

Definition bad_pair_error (b : option (string * string)) : option exn :=
  (λ pc, ValueError (invalid_sequence pc.1 pc.2)) <$> b.

(** The first structural violation of a chain of kinds, if any: no
    Source at the head, then the first illegal adjacency, then no Sink at
    the end. *)
Definition structural_error (ks : list string) : option exn :=
  match ks with
  | [] => None
  | k :: r =>
      if decide (k ≠ "source") then Some must_start_with_source
      else
        match first_bad_pair k r with
        | Some (p, c) => Some (ValueError (invalid_sequence p c))
        | None =>
            if decide (last ks ≠ Some "sink") then Some must_end_with_sink
            else None
        end
  end.

(** How many stages the forward walk passes before it stops. *)
Fixpoint legal_prefix (p : string) (ks : list string) : nat :=
  match ks with
  | [] => 0
  | k :: r => if decide (allowed_successor p k) then S (legal_prefix k r) else 0
  end.

Definition visited (ks : list string) : nat :=
  match ks with
  | [] => 0
  | k :: r => if decide (k ≠ "source") then 0 else S (legal_prefix k r)
  end.

Definition outcome (e : option exn) : result unit :=
  match e with Some e => Raise e | None => Ok tt end.

(** *** The graph, as a function of the components list *)

Definition entry_of (h : heap) (l : loc) : entry :=
  <["type" := VStr (kind h l)]>
  (<["next" := match next_of h l with
               | Some (Some n) => VStr (default "" (name_of h n))
               | _ => VNone
               end]>
  (<["config" := default VNone (config <$> h !! l)]>
  (<["component" := VObj l]> ∅))).

Definition name_at (h : heap) (l : loc) : string := default "" (name_of h l).

Definition graph_of (h : heap) (g : gmap string entry) (cs : list loc) : gmap string entry :=
  foldl (λ g l, <[name_at h l := entry_of h l]> g) g cs.

Definition with_graph (o : PipelineOrchestrator) (g : gmap string entry) :=
  {| components := components o;
     execution_graph := g;
     validate_rules := validate_rules o |}.

(** The keys of a record of the graph. *)
Definition entry_keys : gset string :=
  {["type"; "next"; "config"; "component"]}.

(** Every listed component is an object, and so is its successor. *)
Definition buildable (h : heap) (cs : list loc) : Prop :=
  Forall (λ l, is_Some (h !! l)
               ∧ ∀ n, next_of h l = Some (Some n) → is_Some (h !! n)) cs.

(** The record of the specification for a stage: kind, subtype,
    next_name, config and descriptor_ref. *)
Definition subtype_value (c : PipelineComponent) : value :=
  match cls c with
  | SourceComponent t | SinkComponent t => VStr t
  | _ => VNone
  end.

Definition spec_entry (h : heap) (l : loc) (c : PipelineComponent) : entry :=
  <["kind" := VStr (component_type c)]>
  (<["subtype" := subtype_value c]>
  (<["next_name" := match next c with
                    | Some n => VStr (name_at h n)
                    | None => VNone
                    end]>
  (<["config" := config c]>
  (<["descriptor_ref" := VObj l]> ∅)))).

End Orchestrator.

(** ** main.py: the demonstration pipeline *)

Module Main.
Import Decorators Orchestrator.

(** How Python binds the arguments of a call to a function declared
    with the parameters [params] (no default, no star parameter): the
    positional arguments fill the first parameters, every other parameter
    takes the keyword argument of its name.  Too many positional
    arguments, a keyword that is no remaining parameter, or a parameter
    left without a value, is a [TypeError] ([None] here). *)
Fixpoint lookup_kw (k : string) (kwargs : list (string * value)) : option value :=
  match kwargs with
  | [] => None
  | kv :: rest => if decide (k = kv.1) then Some kv.2 else lookup_kw k rest
  end.

Definition bind_params (params : list string) (args : list value)
    (kwargs : list (string * value)) : option (list value) :=
  let rest := drop (length args) params in
  if decide (length args ≤ length params ∧ Forall (λ kv, kv.1 ∈ rest) kwargs)
  then vs ← mapM (λ p, lookup_kw p kwargs) rest; Some (args ++ vs)
  else None.

(** The three work functions of [main.py]: they read their arguments and
    return a dict, and leave the store alone. *)
Definition read_from_kafka : PyFunc :=
  {| fid := 1%positive;
     fname := "read_from_kafka";
     body := λ a k h,
       (match bind_params ["topic"; "servers"] a k with
        | Some [topic; servers] =>
            Ok (VDict [("topic", topic); ("bootstrap_servers", servers)])
        | _ => Raise (Exception "TypeError")
        end, h) |}.

Definition clean_data : PyFunc :=
  {| fid := 2%positive;
     fname := "clean_data";
     body := λ a k h,
       (match bind_params ["columns"] a k with
        | Some [columns] => Ok (VDict [("columns", columns)])
        | _ => Raise (Exception "TypeError")
        end, h) |}.

Definition write_to_bq : PyFunc :=
  {| fid := 3%positive;
     fname := "write_to_bq";
     body := λ a k h,
       (match bind_params ["dataset"; "table"] a k with
        | Some [dataset; table] =>
            Ok (VDict [("dataset", dataset); ("table", table)])
        | _ => Raise (Exception "TypeError")
        end, h) |}.

(** The function objects of [main.py]. *)
Definition main_code (r : fref) : option PyFunc :=
  if decide (r = 1%positive) then Some read_from_kafka
  else if decide (r = 2%positive) then Some clean_data
  else if decide (r = 3%positive) then Some write_to_bq
  else None.

Definition empty_world : World := {| objects := ∅; calls := [] |}.

(** [read_from_kafka(...) >> clean_data(...) >> write_to_bq(...)] *)
Definition pipeline : M World loc :=
  a ← source "kafka" read_from_kafka [VStr "users"; VStr "localhost:9092"] [];
  b ← transform clean_data [VList [VStr "name"; VStr "email"]] [];
  ab ← link a b;
  c ← sink "bigquery" write_to_bq [VStr "analytics"; VStr "processed_users"] [];
  link ab c.

(** The body of the [try]: validate, then build the graph. *)
Definition validate_and_build (fuel : nat) (h : heap) (entry_point : loc)
  : Orch (gmap string entry) :=
  validate_pipeline fuel h entry_point;;
  build_execution_graph h.

(** The store [main.py] validates. *)
Definition demo : heap := objects (pipeline empty_world).2.

Definition noop (i : fref) (nm : string) : PyFunc :=
  {| fid := i; fname := nm; body := λ _ _ h, (Ok (VDict []), h) |}.

(** Three components, not linked yet. *)
Definition three_stages : M World unit :=
  source "kafka" (noop 4%positive "s1") [] [];;
  sink "bq" (noop 5%positive "k1") [] [];;
  transform (noop 6%positive "t1") [] [];;
  mret tt.

Definition unlinked : heap := objects (three_stages empty_world).2.

(** [s1 >> k1 >> t1]: a sink followed by a transform. *)
Definition sink_then_transform : heap := links [(1, 2); (2, 3)]%positive unlinked.

(** [t1 >> k1 >> s1], built on the same three objects. *)
Definition transform_first : heap := links [(3, 2); (2, 1)]%positive unlinked.

(** [s1 >> k1], then [k1 >> s1]: a cycle. *)
Definition cycle : heap := links [(1, 2); (2, 1)]%positive unlinked.

(** [s1 >> t1], then [t1 >> t1]: a source followed by a transform that is
    its own successor. *)
Definition self_loop : heap := links [(1, 3); (3, 3)]%positive unlinked.

(** [s1 >> t1], then [s1 >> k1]: [t1] still points back to [s1]. *)
Definition bypassed : heap := links [(1, 3); (1, 2)]%positive unlinked.

(** [s1 >> k1], then [t1 >> k1]. *)
Definition relinked : heap := links [(1, 2); (3, 2)]%positive unlinked.

End Main.

(** * Properties *)

(** ** Linking *)

Module DecoratorsFacts.
Import Decorators.

Lemma next_of_rshift (h : heap) (a b l : loc) :
  next_of (rshift a b h).2 l
  = if decide (l = a) then (λ _, Some b) <$> next_of h l else next_of h l.
Proof.
  unfold next_of, rshift; simpl.
  rewrite !lookup_alter.
  repeat case_decide; simplify_eq; try done; by destruct (h !! _).
Qed.

Lemma previous_of_rshift (h : heap) (a b l : loc) :
  previous_of (rshift a b h).2 l
  = if decide (l = b) then (λ _, Some a) <$> previous_of h l else previous_of h l.
Proof.
  unfold previous_of, rshift; simpl.
  rewrite !lookup_alter.
  repeat case_decide; simplify_eq; try done; by destruct (h !! _).
Qed.

Lemma payload_rshift (h : heap) (a b l : loc) :
  payload <$> (rshift a b h).2 !! l = payload <$> h !! l.
Proof.
  unfold rshift; simpl.
  rewrite !lookup_alter.
  repeat case_decide; simplify_eq; try done; by destruct (h !! _).
Qed.

Lemma dom_rshift (h : heap) (a b : loc) : dom (rshift a b h).2 = dom h.
Proof. unfold rshift; simpl. by rewrite !dom_alter_L. Qed.

Lemma is_Some_rshift (h : heap) (a b l : loc) :
  is_Some ((rshift a b h).2 !! l) ↔ is_Some (h !! l).
Proof. by rewrite <-!elem_of_dom, dom_rshift. Qed.

Lemma next_of_alloc (h : heap) (l : loc) :
  is_Some (h !! l) ↔ is_Some (next_of h l).
Proof. unfold next_of. by rewrite fmap_is_Some. Qed.

Lemma previous_of_alloc (h : heap) (l : loc) :
  is_Some (h !! l) ↔ is_Some (previous_of h l).
Proof. unfold previous_of. by rewrite fmap_is_Some. Qed.

(** [__rrshift__] with the operands swapped is [__rshift__], up to the
    operand it returns. *)
Lemma rrshift_rshift (h : heap) (self other : loc) :
  rrshift self other h = (self, (rshift other self h).2).
Proof. reflexivity. Qed.

(** One link between open ends keeps the store consistent. *)
Lemma rshift_consistent (h : heap) (a b : loc) :
  consistent h →
  next_of h a = Some None → previous_of h b = Some None →
  consistent (rshift a b h).2.
Proof.
  intros Hc Ha Hb x y.
  rewrite next_of_rshift, previous_of_rshift.
  destruct (decide (x = a)) as [->|Hxa], (decide (y = b)) as [->|Hyb].
  - rewrite Ha, Hb. done.
  - rewrite Ha. simpl. split; [intros ?; simplify_eq|].
    intros Hp. apply Hc in Hp. congruence.
  - rewrite Hb. simpl. split; [|intros ?; simplify_eq].
    intros Hn. apply Hc in Hn. congruence.
  - apply Hc.
Qed.

(** Reading the two fields a link has just written. *)
Lemma rshift_next (h : heap) (a b : loc) :
  is_Some (h !! a) → next_of (rshift a b h).2 a = Some (Some b).
Proof.
  intros [c Hc]. rewrite next_of_rshift, decide_True by done.
  unfold next_of. by rewrite Hc.
Qed.

Lemma rshift_previous (h : heap) (a b : loc) :
  is_Some (h !! b) → previous_of (rshift a b h).2 b = Some (Some a).
Proof.
  intros [c Hc]. rewrite previous_of_rshift, decide_True by done.
  unfold previous_of. by rewrite Hc.
Qed.

(** A store none of whose objects is linked is consistent. *)
Lemma unlinked_consistent (h : heap) :
  map_Forall (λ _ c, next c = None ∧ previous c = None) h → consistent h.
Proof.
  intros Hall a b. unfold next_of, previous_of. split; intros Heq.
  - destruct (h !! a) as [c|] eqn:Hc; [|done].
    destruct (Hall _ _ Hc) as [Hn _]. simpl in Heq. congruence.
  - destruct (h !! b) as [c|] eqn:Hc; [|done].
    destruct (Hall _ _ Hc) as [_ Hp]. simpl in Heq. congruence.
Qed.

(** C7: [a >> b] sets [a.next = b] and [b.previous = a], writes no other
    attribute of any object, allocates nothing and returns [b]; hence
    [(a >> b) >> c], for three distinct components, leaves [a.next = b],
    [b.previous = a], [b.next = c], [c.previous = b], which is the chain
    [a; b; c] when [a] had no predecessor and [c] no successor. *)
Theorem rshift_links (h : heap) (a b : loc) :
  is_Some (h !! a) → is_Some (h !! b) →
  (rshift a b h).1 = b
  ∧ next_of (rshift a b h).2 a = Some (Some b)
  ∧ previous_of (rshift a b h).2 b = Some (Some a)
  ∧ dom (rshift a b h).2 = dom h
  ∧ (∀ l, payload <$> (rshift a b h).2 !! l = payload <$> h !! l)
  ∧ (∀ l, l ≠ a → next_of (rshift a b h).2 l = next_of h l)
  ∧ (∀ l, l ≠ b → previous_of (rshift a b h).2 l = previous_of h l)
  ∧ (∀ c, is_Some (h !! c) → a ≠ b → b ≠ c →
       let ab := rshift a b h in
       let abc := rshift ab.1 c ab.2 in
       abc.1 = c
       ∧ next_of abc.2 a = Some (Some b)
       ∧ previous_of abc.2 b = Some (Some a)
       ∧ next_of abc.2 b = Some (Some c)
       ∧ previous_of abc.2 c = Some (Some b)
       ∧ (previous_of h a = Some None → next_of h c = Some None → a ≠ c →
          chain abc.2 [a; b; c])).
Proof.
  intros Ha Hb.
  split; [done|].
  split; [by apply rshift_next|].
  split; [by apply rshift_previous|].
  split; [apply dom_rshift|].
  split; [intros l; apply payload_rshift|].
  split; [intros l Hl; by rewrite next_of_rshift, decide_False|].
  split; [intros l Hl; by rewrite previous_of_rshift, decide_False|].
  intros c Hc Hab Hbc ab abc.
  assert (Hb' : is_Some (ab.2 !! b)) by by apply is_Some_rshift.
  assert (Hc' : is_Some (ab.2 !! c)) by by apply is_Some_rshift.
  assert (Hna : next_of abc.2 a = Some (Some b)).
  { unfold abc. rewrite next_of_rshift, decide_False by done.
    by apply rshift_next. }
  assert (Hpb : previous_of abc.2 b = Some (Some a)).
  { unfold abc. rewrite previous_of_rshift, decide_False by done.
    by apply rshift_previous. }
  assert (Hnb : next_of abc.2 b = Some (Some c)) by by apply rshift_next.
  assert (Hpc : previous_of abc.2 c = Some (Some b)) by by apply rshift_previous.
  refine (conj eq_refl (conj Hna (conj Hpb (conj Hnb (conj Hpc _))))).
  intros Hpa Hnc Hac. split; [done|].
  assert (Hpa' : previous_of abc.2 a = Some None).
  { unfold abc, ab. simpl fst.
    by rewrite !previous_of_rshift, !decide_False. }
  assert (Hnc' : next_of abc.2 c = Some None).
  { unfold abc, ab. simpl fst.
    by rewrite !next_of_rshift, !decide_False. }
  simpl. done.
Qed.

(** C5 (as amended): along a sequence of links each of which finds its
    left operand without a successor and its right operand without a
    predecessor, a consistent store stays consistent after every link,
    and right after [a >> b], [a.next] is [b] and [b.previous] is [a];
    [__rrshift__] writes the same two fields as [__rshift__] with the
    operands swapped. *)
Theorem links_consistent (h : heap) (ops : list (loc * loc)) :
  consistent h → open_ends h ops →
  ∀ k,
    consistent (links (take k ops) h)
    ∧ (∀ a b, ops !! k = Some (a, b) →
         next_of (links (take (S k) ops) h) a = Some (Some b)
         ∧ previous_of (links (take (S k) ops) h) b = Some (Some a)
         ∧ rrshift b a (links (take k ops) h)
           = (b, (rshift a b (links (take k ops) h)).2)).
Proof.
  revert h. induction ops as [|[a0 b0] ops IH]; intros h Hc Hopen k.
  - rewrite take_nil. split; [done|]. intros a b Hk. by rewrite lookup_nil in Hk.
  - destruct Hopen as (Ha & Hb & Hopen). simpl in Ha, Hb, Hopen.
    pose proof (rshift_consistent h a0 b0 Hc Ha Hb) as Hc'.
    destruct k as [|k].
    + split; [done|]. intros a b Hk. simplify_eq/=.
      split; [|split; [|done]].
      * apply rshift_next, next_of_alloc. by rewrite Ha.
      * apply rshift_previous, previous_of_alloc. by rewrite Hb.
    + destruct (IH _ Hc' Hopen k) as [IH1 IH2].
      split; [done|]. intros a b Hk. by apply IH2.
Qed.

(** *** Walking back to the head *)

Lemma segment_alloc (h : heap) (p : option loc) (l : list loc) (x : loc) :
  segment h p l → x ∈ l → is_Some (h !! x).
Proof.
  revert p. induction l as [|y l IH]; intros p Hs Hx; [by apply elem_of_nil in Hx|].
  destruct Hs as (Hp & _ & Hs).
  apply elem_of_cons in Hx as [->|Hx]; [|by eapply IH].
  apply previous_of_alloc. by rewrite Hp.
Qed.

Lemma segment_previous (h : heap) (p : option loc) (l : list loc) (i : nat) (x : loc) :
  segment h p l → l !! i = Some x →
  previous_of h x = Some (match i with O => p | S j => l !! j end).
Proof.
  revert p i. induction l as [|y l IH]; intros p i Hs Hx; [done|].
  destruct Hs as (Hp & _ & Hs).
  destruct i as [|i]; simplify_eq/=; [done|].
  rewrite (IH _ _ Hs Hx). by destruct i.
Qed.

Lemma get_first_component_step (fuel : nat) (h : heap) (x p : loc) :
  previous_of h x = Some (Some p) →
  get_first_component (S fuel) h x = get_first_component fuel h p.
Proof.
  unfold previous_of. intros Hx. simpl.
  destruct (h !! x) as [c|]; [|done].
  injection Hx as Hx. by rewrite Hx.
Qed.

Lemma get_first_component_head (fuel : nat) (h : heap) (x : loc) :
  previous_of h x = Some None → get_first_component fuel h x = Ok x.
Proof.
  unfold previous_of. intros Hx.
  destruct fuel; simpl; (destruct (h !! x) as [c|]; [|done]);
    injection Hx as Hx; by rewrite Hx.
Qed.

Lemma get_first_component_segment (h : heap) (p : option loc) (x : loc) (r : list loc) :
  segment h p (x :: r) →
  ∀ (i : nat) (d : loc) (fuel : nat), (x :: r) !! i = Some d → i ≤ fuel →
    get_first_component fuel h d = get_first_component (fuel - i) h x.
Proof.
  revert p x. induction r as [|y r IH]; intros p x Hs i d fuel Hd Hi.
  - destruct i; simplify_eq/=. by rewrite Nat.sub_0_r.
  - destruct i as [|i]; simplify_eq/=; [by rewrite Nat.sub_0_r|].
    destruct Hs as (_ & _ & Hs).
    destruct fuel as [|fuel]; [lia|].
    rewrite (IH _ _ Hs i d (S fuel) Hd) by lia.
    destruct Hs as (Hy & _).
    replace (S fuel - i) with (S (fuel - i)) by lia.
    by apply get_first_component_step.
Qed.

(** From any member of a chain, the walk back ends at the head. *)
Lemma get_first_component_on_chain (h : heap) (l : list loc) (d : loc) :
  chain h l → d ∈ l →
  ∃ hd, head l = Some hd
    ∧ (∀ fuel : nat, length l ≤ fuel → get_first_component fuel h d = Ok hd)
    ∧ previous_of h hd = Some None
    ∧ ∀ x, x ∈ l → previous_of h x = Some None → x = hd.
Proof.
  intros [Hne Hs] Hd. destruct l as [|hd r]; [done|].
  exists hd. split; [done|].
  pose proof Hs as (Hp & _).
  split; [|split; [done|]].
  - intros fuel Hfuel.
    apply list_elem_of_lookup in Hd as [i Hi].
    pose proof (lookup_lt_Some _ _ _ Hi) as Hlt.
    rewrite (get_first_component_segment _ _ _ _ Hs i d fuel Hi) by lia.
    by apply get_first_component_head.
  - intros x Hx Hpx. apply list_elem_of_lookup in Hx as [i Hi].
    pose proof (segment_previous _ _ _ _ _ Hs Hi) as Hprev.
    destruct i as [|i]; [by simplify_eq/=|].
    rewrite Hpx in Hprev. simplify_eq.
    pose proof (lookup_lt_Some _ _ _ Hi) as Hlt.
    destruct (lookup_lt_is_Some_2 (hd :: r) i) as [y Hy]; [lia|]. congruence.
Qed.

(** C8: on a chain, [get_first_component] returns from every member, with
    fuel for one step per member; what it returns is the head of the
    chain, whichever member it starts from, and the head is the only
    member whose [previous] is [None]. *)
Theorem get_first_component_chain (h : heap) (l : list loc) (d : loc) :
  chain h l → d ∈ l →
  ∃ hd, head l = Some hd
    ∧ (∀ fuel : nat, length l ≤ fuel → get_first_component fuel h d = Ok hd)
    ∧ previous_of h hd = Some None
    ∧ ∀ x, x ∈ l → previous_of h x = Some None → x = hd.
Proof. apply get_first_component_on_chain. Qed.

(** *** The decorators *)

Lemma new_spec (c : PipelineComponent) (w : World) :
  ∃ l, new c w = (Ok l, {| objects := <[l := c]> (objects w); calls := calls w |})
    ∧ objects w !! l = None.
Proof.
  eexists. split; [reflexivity|].
  apply not_elem_of_dom, is_fresh.
Qed.

(** C10: the wrapper of [transform] does not call the work function (no
    call is logged, and the store only gains the new component, whatever
    the function would do) and the new component's config is
    [{"args": args, "kwargs": kwargs}]; the wrappers of [source] and
    [sink] call the work function exactly once, with the wrapper's
    arguments, on the store as it is, and the value it returns is the
    config of the new component, which is added to the store the call
    left (when the function raises or does not return, so does the
    wrapper, and nothing is constructed). *)
Theorem decorators_config (f : PyFunc) (args : list value)
    (kwargs : list (string * value)) (w : World) :
  (∃ l c,
     transform f args kwargs w
     = (Ok l, {| objects := <[l := c]> (objects w); calls := calls w |})
     ∧ objects w !! l = None
     ∧ made c f "transform"
         (VDict [("args", VTuple args); ("kwargs", VDict kwargs)])
         TransformComponent)
  ∧ (∀ source_type,
       calls (source source_type f args kwargs w).2
       = calls w ++ [the_call f args kwargs]
       ∧ match (body f args kwargs (objects w)).1 with
         | Ok v => ∃ l c,
             (body f args kwargs (objects w)).2 !! l = None
             ∧ (source source_type f args kwargs w).1 = Ok l
             ∧ objects (source source_type f args kwargs w).2
               = <[l := c]> (body f args kwargs (objects w)).2
             ∧ made c f "source" v (SourceComponent source_type)
         | r => (source source_type f args kwargs w).1
                = match r with
                  | Raise e => Raise e
                  | Timeout => Timeout
                  | _ => Stuck
                  end
             ∧ objects (source source_type f args kwargs w).2
               = (body f args kwargs (objects w)).2
         end)
  ∧ (∀ sink_type,
       calls (sink sink_type f args kwargs w).2
       = calls w ++ [the_call f args kwargs]
       ∧ match (body f args kwargs (objects w)).1 with
         | Ok v => ∃ l c,
             (body f args kwargs (objects w)).2 !! l = None
             ∧ (sink sink_type f args kwargs w).1 = Ok l
             ∧ objects (sink sink_type f args kwargs w).2
               = <[l := c]> (body f args kwargs (objects w)).2
             ∧ made c f "sink" v (SinkComponent sink_type)
         | r => (sink sink_type f args kwargs w).1
                = match r with
                  | Raise e => Raise e
                  | Timeout => Timeout
                  | _ => Stuck
                  end
             ∧ objects (sink sink_type f args kwargs w).2
               = (body f args kwargs (objects w)).2
         end).
Proof.
  split.
  { eexists _, _. split; [reflexivity|].
    split; [apply not_elem_of_dom, is_fresh|]. by repeat split. }
  split; intros ty; unfold source, sink, mbind, M_bind, invoke;
    destruct (body f args kwargs (objects w)) as [[v|e| |] h1]; simpl;
    (split; [done|]); try done;
    (eexists _, _; split; [apply not_elem_of_dom, is_fresh|];
     split; [reflexivity|]; split; [reflexivity|]; by repeat split).
Qed.

End DecoratorsFacts.

(** ** Validation *)

Module OrchestratorFacts.
Import Decorators Orchestrator Main DecoratorsFacts.

Lemma extend_nil (o : PipelineOrchestrator) : extend o [] = o.
Proof. destruct o. unfold extend. simpl. by rewrite app_nil_r. Qed.

Lemma extend_append (o : PipelineOrchestrator) (x : loc) (v : list loc) :
  extend (append x o) v = extend o (x :: v).
Proof. unfold extend, append. simpl. by rewrite <-app_assoc. Qed.

Lemma extend_extend (o : PipelineOrchestrator) (v1 v2 : list loc) :
  extend (extend o v1) v2 = extend o (v1 ++ v2).
Proof. unfold extend. simpl. by rewrite <-app_assoc. Qed.

Lemma kind_lookup (h : heap) (l : loc) (c : PipelineComponent) :
  h !! l = Some c → component_type c = kind h l.
Proof. unfold kind, type_of. by intros ->. Qed.

Lemma deref_Some (h : heap) (l : loc) (c : PipelineComponent) (o : PipelineOrchestrator) :
  h !! l = Some c → deref h l o = (Ok c, o).
Proof. unfold deref. by intros ->. Qed.

(** [_validate_connection] reads the two types and the table. *)
Lemma validate_connection_kinds (h : heap) (p x : loc) (o : PipelineOrchestrator) :
  is_Some (h !! p) → is_Some (h !! x) →
  _validate_connection h p x o
  = (check_connection (validate_rules o) (Some (kind h p)) (kind h x), o).
Proof.
  intros [cp Hp] [cx Hx]. unfold _validate_connection, mbind, M_bind.
  rewrite (deref_Some _ _ _ _ Hp), (deref_Some _ _ _ _ Hx). simpl.
  rewrite <-(kind_lookup _ _ _ Hp), <-(kind_lookup _ _ _ Hx).
  destruct (validate_rules o !! component_type cp) as [allowed|]; [|done].
  by case_decide.
Qed.

(** The loop of [validate_pipeline] on a segment of the store. *)
Lemma walk_segment (h : heap) (l : list loc) :
  ∀ (p : option loc) (fuel : nat) (o : PipelineOrchestrator),
    segment h p l →
    (∀ p', p = Some p' → is_Some (h !! p')) →
    length l ≤ fuel →
    walk fuel h (head l) o
    = ((walk_kinds (validate_rules o) (kind h <$> p) (kinds h l)).1,
       extend o (take (walk_kinds (validate_rules o) (kind h <$> p) (kinds h l)).2 l)).
Proof.
  induction l as [|x r IH]; intros p fuel o Hs Hp Hfuel.
  - destruct fuel; simpl; by rewrite extend_nil.
  - destruct fuel as [|fuel]; [simpl in Hfuel; lia|].
    pose proof Hs as (Hprev & Hnext & Hs').
    assert (Hx : is_Some (h !! x)) by (apply previous_of_alloc; by rewrite Hprev).
    destruct Hx as [c Hc].
    unfold previous_of in Hprev. unfold next_of in Hnext.
    rewrite Hc in Hprev, Hnext. simpl in Hprev, Hnext. simplify_eq.
    cbn [head walk kinds fmap list_fmap walk_kinds].
    unfold mbind, M_bind at 1. rewrite (deref_Some _ _ _ _ Hc).
    unfold mbind, M_bind at 1.
    assert (Hcheck :
      match previous c with
      | Some p => _validate_connection h p x
      | None => mret tt
      end o
      = (check_connection (validate_rules o) (kind h <$> previous c) (kind h x), o)).
    { destruct (previous c) as [p'|] eqn:Hpc; [|done].
      apply validate_connection_kinds; [by apply Hp|by rewrite Hc]. }
    rewrite Hcheck.
    destruct (check_connection (validate_rules o) (kind h <$> previous c) (kind h x))
      as [[]| | |]; simpl; try (by rewrite extend_nil).
    unfold mbind, M_bind, modify. simpl.
    rewrite Hnext.
    rewrite (IH (Some x) fuel (append x o) Hs');
      [|intros ? [= <-]; by rewrite Hc|simpl in Hfuel; lia].
    simpl.
    destruct (walk_kinds (validate_rules o) (Some (kind h x)) (kind h <$> r))
      as [res n] eqn:Hw.
    fold (kinds h r). unfold kinds at 1 2. rewrite Hw. simpl.
    by rewrite extend_append.
Qed.

Lemma walk_kinds_Ok (rules : gmap string (list string)) (ks : list string) :
  ∀ p n, walk_kinds rules p ks = (Ok tt, n) → n = length ks.
Proof.
  induction ks as [|k r IH]; intros p n Hw; simpl in Hw; [by simplify_eq|].
  destruct (check_connection rules p k) as [[]| | |]; simplify_eq.
  destruct (walk_kinds rules (Some k) r) as [res m] eqn:Hr. simplify_eq.
  by rewrite (IH _ _ Hr).
Qed.

(** [validate_pipeline] from any member of a chain: the outcome and the
    components appended are those computed from the component types. *)
Lemma validate_pipeline_chain (h : heap) (l : list loc) (entry_point : loc)
    (fuel : nat) (o : PipelineOrchestrator) :
  chain h l → entry_point ∈ l → length l ≤ fuel →
  validate_pipeline fuel h entry_point o
  = ((validate_kinds (validate_rules o) (kinds h l)).1,
     extend o (take (validate_kinds (validate_rules o) (kinds h l)).2 l)).
Proof.
  intros Hchain Hentry Hfuel.
  destruct (get_first_component_on_chain h l entry_point Hchain Hentry)
    as (hd & Hhd & Hfirst & _).
  destruct Hchain as [Hne Hs].
  destruct l as [|x r]; [done|]. injection Hhd as ->.
  assert (Hx : is_Some (h !! hd)) by (eapply segment_alloc; [done|apply list_elem_of_here]).
  destruct Hx as [c Hc].
  unfold validate_pipeline, mbind, M_bind at 1.
  rewrite (Hfirst fuel Hfuel).
  unfold mbind, M_bind at 1. rewrite (deref_Some _ _ _ _ Hc).
  rewrite (kind_lookup _ _ _ Hc).
  change (kinds h (hd :: r)) with (kind h hd :: kinds h r).
  unfold validate_kinds.
  change (kind h hd :: kinds h r) with (kinds h (hd :: r)).
  case_decide as Hsrc; [simpl; by rewrite extend_nil|].
  unfold mbind, M_bind at 1.
  change (Some hd) with (head (hd :: r)).
  rewrite (walk_segment h (hd :: r) None fuel o Hs); [|done|done].
  change (kind h <$> None) with (@None string).
  destruct (walk_kinds (validate_rules o) None (kinds h (hd :: r)))
    as [res n] eqn:Hw.
  cbn [fst snd].
  destruct res as [[]| | |]; try done.
  pose proof (walk_kinds_Ok _ _ _ _ Hw) as ->.
  unfold kinds. rewrite length_fmap, firstn_all, fmap_last.
  unfold mbind, M_bind, get. cbn [components extend].
  assert (Hlast : is_Some (last (hd :: r))) by (by rewrite last_is_Some).
  destruct Hlast as [z Hz].
  rewrite last_app, Hz. cbn [fmap option_fmap option_map].
  assert (Hzl : is_Some (h !! z)).
  { eapply segment_alloc; [done|]. apply last_Some in Hz as [l' ->].
    apply elem_of_app. right. apply list_elem_of_here. }
  destruct Hzl as [cz Hcz]. rewrite (deref_Some _ _ _ _ Hcz).
  rewrite (kind_lookup _ _ _ Hcz). cbn [fst snd]. rewrite firstn_all.
  destruct (decide (kind h z ≠ "sink")) as [Hk|Hk];
    destruct (decide (Some (kind h z) ≠ Some "sink")) as [Hk'|Hk']; try done.
  - destruct Hk'. intros [= ?]. done.
  - apply dec_stable in Hk. by rewrite Hk in Hk'.
Qed.

(** *** The default table *)

Lemma allowed_successor_known (p c : string) : allowed_successor p c → known c.
Proof. unfold allowed_successor, known. tauto. Qed.

Lemma check_connection_default (p k : string) :
  known p →
  check_connection default_rules (Some p) k
  = if decide (allowed_successor p k) then Ok tt
    else Raise (ValueError (invalid_sequence p k)).
Proof.
  intros Hp. unfold check_connection, default_rules.
  assert (Hmem : ∀ k : string, k ∈ ["transform"; "sink"] ↔ k = "transform" ∨ k = "sink").
  { intros k'. rewrite !elem_of_cons, elem_of_nil. tauto. }
  destruct Hp as [-> | [-> | ->]].
  - rewrite lookup_insert_eq.
    destruct (decide (k ∈ ["transform"; "sink"])) as [Hin|Hin];
      destruct (decide (allowed_successor "source" k)) as [Hal|Hal]; try done.
    + destruct Hal. split; [by left|by apply Hmem].
    + destruct Hin. apply Hmem, Hal.
  - rewrite lookup_insert_ne, lookup_insert_eq by done.
    destruct (decide (k ∈ ["transform"; "sink"])) as [Hin|Hin];
      destruct (decide (allowed_successor "transform" k)) as [Hal|Hal]; try done.
    + destruct Hal. split; [by right|by apply Hmem].
    + destruct Hin. apply Hmem, Hal.
  - rewrite !lookup_insert_ne, lookup_insert_eq by done.
    destruct (decide (k ∈ [])) as [Hin|Hin]; [by apply elem_of_nil in Hin|].
    destruct (decide (allowed_successor "sink" k)) as [Hal|Hal]; [|done].
    by destruct Hal as [[?|?] _].
Qed.

Lemma walk_kinds_default (ks : list string) :
  ∀ p, known p →
    walk_kinds default_rules (Some p) ks
    = (outcome (bad_pair_error (first_bad_pair p ks)), legal_prefix p ks).
Proof.
  induction ks as [|k r IH]; intros p Hp; [done|].
  cbn [walk_kinds first_bad_pair legal_prefix].
  rewrite (check_connection_default _ _ Hp).
  case_decide as Hal; [|done].
  rewrite (IH k) by by eapply allowed_successor_known.
  done.
Qed.

Lemma validate_kinds_default (ks : list string) :
  ks ≠ [] →
  validate_kinds default_rules ks = (outcome (structural_error ks), visited ks).
Proof.
  destruct ks as [|k r]; [done|]. intros _.
  unfold validate_kinds, structural_error, visited.
  destruct (decide (k ≠ "source")) as [Hk|Hk]; [done|].
  apply dec_stable in Hk. subst k.
  cbn [walk_kinds check_connection].
  rewrite walk_kinds_default by by left.
  destruct (first_bad_pair "source" r) as [[p c]|]; [done|].
  simpl. by case_decide.
Qed.

(** [validate_pipeline] with the table of [__init__], from any member of
    a chain: it stops at the first structural violation, having appended
    the components it passed. *)
Lemma validate_pipeline_default (h : heap) (l : list loc) (entry_point : loc)
    (fuel : nat) (o : PipelineOrchestrator) :
  chain h l → entry_point ∈ l → length l ≤ fuel →
  validate_rules o = default_rules →
  validate_pipeline fuel h entry_point o
  = (outcome (structural_error (kinds h l)),
     extend o (take (visited (kinds h l)) l)).
Proof.
  intros Hchain Hentry Hfuel Hrules.
  rewrite (validate_pipeline_chain h l) by done.
  rewrite Hrules, validate_kinds_default; [done|].
  destruct Hchain as [Hne _]. by destruct l.
Qed.

(** *** Facts about the rules on kinds *)

Lemma first_bad_pair_transforms (n : nat) (p : string) (tl : list string) :
  p = "source" ∨ p = "transform" →
  first_bad_pair p (replicate n "transform" ++ tl) = first_bad_pair
    (match n with O => p | S _ => "transform" end) tl
  ∧ legal_prefix p (replicate n "transform" ++ tl)
    = n + legal_prefix (match n with O => p | S _ => "transform" end) tl.
Proof.
  revert p. induction n as [|n IH]; intros p Hp; [done|].
  cbn [replicate app first_bad_pair legal_prefix].
  rewrite !decide_True by (unfold allowed_successor; tauto).
  destruct (IH "transform") as [IH1 IH2]; [by right|].
  rewrite IH1, IH2. by destruct n.
Qed.

(** A bad pair exists exactly when [first_bad_pair] finds one. *)
Lemma first_bad_pair_None (p : string) (ks : list string) :
  first_bad_pair p ks = None
  ↔ ∀ (i : nat) a b, (p :: ks) !! i = Some a → (p :: ks) !! S i = Some b →
      allowed_successor a b.
Proof.
  revert p. induction ks as [|k r IH]; intros p; simpl.
  - split; [|done]. intros _ [|[|i]] a b ??; simplify_eq/=.
  - case_decide as Hal.
    + rewrite IH. split.
      * intros Hall [|i] a b Ha Hb; simplify_eq/=; [done|]. by eapply Hall.
      * intros Hall i a b Ha Hb. by apply (Hall (S i)).
    + split; [done|]. intros Hall. destruct Hal. by apply (Hall 0).
Qed.

(** What [first_bad_pair] finds is the first bad pair, and the walk has
    passed everything up to its first member. *)
Lemma first_bad_pair_first (p : string) (ks : list string) (i : nat) (a b : string) :
  (p :: ks) !! i = Some a → (p :: ks) !! S i = Some b →
  ¬ allowed_successor a b →
  (∀ (j : nat) x y, j < i → (p :: ks) !! j = Some x → (p :: ks) !! S j = Some y →
     allowed_successor x y) →
  first_bad_pair p ks = Some (a, b) ∧ legal_prefix p ks = i.
Proof.
  revert p i. induction ks as [|k r IH]; intros p i Ha Hb Hbad Hbefore.
  - destruct i; simplify_eq/=.
  - cbn [first_bad_pair legal_prefix].
    destruct i as [|i].
    + simpl in Ha, Hb. simplify_eq. by rewrite !decide_False.
    + rewrite !decide_True by (by apply (Hbefore 0); [lia|..]).
      destruct (IH k i Ha Hb Hbad) as [-> ->]; [|done].
      intros j x y Hj Hx Hy. apply (Hbefore (S j)); [lia|done..].
Qed.

Lemma legal_prefix_None (p : string) (ks : list string) :
  first_bad_pair p ks = None → legal_prefix p ks = length ks.
Proof.
  revert p. induction ks as [|k r IH]; intros p; simpl; [done|].
  case_decide; [|done]. intros Hr. by rewrite IH.
Qed.

Lemma first_bad_pair_Some (p : string) (ks : list string) (a b : string) :
  first_bad_pair p ks = Some (a, b) →
  ∃ i : nat, (p :: ks) !! i = Some a ∧ (p :: ks) !! S i = Some b
    ∧ ¬ allowed_successor a b.
Proof.
  revert p. induction ks as [|k r IH]; intros p; simpl; [done|].
  case_decide as Hal.
  - intros Hr. destruct (IH _ Hr) as (i & Ha & Hb & Hbad). by exists (S i).
  - intros [= <- <-]. by exists 0.
Qed.

Lemma structural_error_ValueError (ks : list string) (e : exn) :
  structural_error ks = Some e → ∃ msg, e = ValueError msg.
Proof.
  destruct ks as [|k r]; [done|]. unfold structural_error.
  repeat case_match; intros; simplify_eq; by eexists.
Qed.

(** The three conditions of the specification, and no other, make
    [structural_error] find something. *)
Lemma structural_error_Some (ks : list string) :
  ks ≠ [] →
  is_Some (structural_error ks)
  ↔ head ks ≠ Some "source"
    ∨ (∃ (i : nat) p c, ks !! i = Some p ∧ ks !! S i = Some c
         ∧ ¬ allowed_successor p c)
    ∨ last ks ≠ Some "sink".
Proof.
  destruct ks as [|k r]; [done|]. intros _.
  unfold structural_error. cbn [head].
  destruct (decide (k ≠ "source")) as [Hk|Hk].
  { split; [intros _; left; congruence|by eexists]. }
  apply dec_stable in Hk. subst k.
  destruct (first_bad_pair "source" r) as [[p c]|] eqn:Hbad.
  { split; [intros _|by eexists].
    destruct (first_bad_pair_Some _ _ _ _ Hbad) as (i & ? & ? & ?).
    right; left. by exists i, p, c. }
  destruct (decide (last ("source" :: r) ≠ Some "sink")) as [Hl|Hl].
  { split; [intros _; by right; right|by eexists]. }
  split; [by intros [? ?]|].
  intros [Hh|[(i & p & c & Hp & Hc & Hpc)|Hlast]]; [done| |done].
  destruct Hpc. by eapply first_bad_pair_None.
Qed.

Lemma walk_kinds_returns (rules : gmap string (list string)) (ks : list string) :
  ∀ p, returns (walk_kinds rules p ks).1.
Proof.
  induction ks as [|k r IH]; intros p; simpl; [done|].
  destruct p as [p|]; simpl.
  - destruct (rules !! p) as [allowed|]; [|done].
    case_decide; [|done].
    specialize (IH (Some k)). by destruct (walk_kinds rules (Some k) r).
  - specialize (IH (Some k)). by destruct (walk_kinds rules (Some k) r).
Qed.

Lemma validate_kinds_returns (rules : gmap string (list string)) (ks : list string) :
  ks ≠ [] → returns (validate_kinds rules ks).1.
Proof.
  destruct ks as [|k r]; [done|]. intros _. unfold validate_kinds.
  case_decide; [done|].
  pose proof (walk_kinds_returns rules (k :: r) None) as Hw.
  destruct (walk_kinds rules None (k :: r)) as [[[]| | |] n]; try done.
  simpl. by case_decide.
Qed.

(** C3: on a chain Source, T1, …, Tn, Sink, from any member of it,
    [validate_pipeline] returns without raising and appends the n+2
    components in chain order; on a new orchestrator the components list
    is the chain. *)
Theorem validate_pipeline_valid_chain (h : heap) (l : list loc) (entry_point : loc)
    (fuel : nat) (o : PipelineOrchestrator) (n : nat) :
  chain h l → entry_point ∈ l → length l ≤ fuel →
  validate_rules o = default_rules →
  kinds h l = "source" :: replicate n "transform" ++ ["sink"] →
  validate_pipeline fuel h entry_point o = (Ok tt, extend o l)
  ∧ length l = n + 2
  ∧ (components o = [] →
     components (validate_pipeline fuel h entry_point o).2 = l).
Proof.
  intros Hchain Hentry Hfuel Hrules Hkinds.
  assert (Hlen : length l = n + 2).
  { rewrite <-(length_fmap (kind h) l). fold (kinds h l). rewrite Hkinds.
    simpl. rewrite length_app, length_replicate. simpl. lia. }
  assert (Hval : validate_pipeline fuel h entry_point o = (Ok tt, extend o l)).
  { rewrite (validate_pipeline_default h l) by done.
    rewrite Hkinds. unfold structural_error, visited.
    rewrite decide_False by (by intros []).
    destruct (first_bad_pair_transforms n "source" ["sink"]) as [-> ->]; [by left|].
    assert (Hsink : first_bad_pair (match n with 0 => "source" | S _ => "transform" end)
                      ["sink"] = None
                    ∧ legal_prefix (match n with 0 => "source" | S _ => "transform" end)
                      ["sink"] = 1).
    { by destruct n. }
    destruct Hsink as [-> ->].
    rewrite decide_False.
    - simpl. rewrite take_ge by lia. done.
    - intros Hl. apply Hl.
      change ("source" :: replicate n "transform" ++ ["sink"])
        with (("source" :: replicate n "transform") ++ ["sink"]).
      apply last_snoc. }
  split; [done|]. split; [done|].
  intros Hnil. rewrite Hval. simpl. by rewrite Hnil.
Qed.

(** C4: on a chain, [validate_pipeline] raises (a [ValueError]) exactly
    when the head is not a source, or some adjacent pair is not in the
    allowed-successor table, or the last component is not a sink; what it
    raises is the first of these violations in walk order; and when it
    raises, the execution graph is untouched and validate-then-build
    raises the same error without building. *)
Theorem validate_pipeline_structural_error (h : heap) (l : list loc)
    (entry_point : loc) (fuel : nat) (o : PipelineOrchestrator) :
  chain h l → entry_point ∈ l → length l ≤ fuel →
  validate_rules o = default_rules →
  let ks := kinds h l in
  let r := (validate_pipeline fuel h entry_point o).1 in
  let o' := (validate_pipeline fuel h entry_point o).2 in
  (r = Ok tt ∨ ∃ msg, r = Raise (ValueError msg))
  ∧ ((∃ msg, r = Raise (ValueError msg))
     ↔ head ks ≠ Some "source"
       ∨ (∃ (i : nat) p c, ks !! i = Some p ∧ ks !! S i = Some c
            ∧ ¬ allowed_successor p c)
       ∨ last ks ≠ Some "sink")
  ∧ r = outcome (structural_error ks)
  ∧ (head ks ≠ Some "source" → r = Raise must_start_with_source)
  ∧ (∀ (i : nat) p c,
       head ks = Some "source" →
       ks !! i = Some p → ks !! S i = Some c → ¬ allowed_successor p c →
       (∀ (j : nat) x y, j < i → ks !! j = Some x → ks !! S j = Some y →
          allowed_successor x y) →
       r = Raise (ValueError (invalid_sequence p c)))
  ∧ (∀ e, r = Raise e →
       execution_graph o' = execution_graph o
       ∧ validate_and_build fuel h entry_point o = (Raise e, o')).
Proof.
  intros Hchain Hentry Hfuel Hrules ks r o'.
  assert (Hne : ks ≠ []).
  { destruct Hchain as [Hne _]. unfold ks. by destruct l. }
  assert (Hval : validate_pipeline fuel h entry_point o
                 = (outcome (structural_error ks), extend o (take (visited ks) l))).
  { by apply validate_pipeline_default. }
  assert (Hr : r = outcome (structural_error ks)) by (unfold r; by rewrite Hval).
  assert (Ho : o' = extend o (take (visited ks) l)) by (unfold o'; by rewrite Hval).
  assert (Hiff : (∃ msg, r = Raise (ValueError msg)) ↔ is_Some (structural_error ks)).
  { rewrite Hr. split.
    - intros [msg Hm]. destruct (structural_error ks); [by eexists|done].
    - intros [e He]. rewrite He.
      destruct (structural_error_ValueError _ _ He) as [msg ->]. by exists msg. }
  split; [|split; [|split; [done|split; [|split]]]].
  - destruct (structural_error ks) as [e|] eqn:He.
    + right. apply Hiff. by eexists.
    + left. by rewrite Hr.
  - rewrite Hiff. by apply structural_error_Some.
  - intros Hhead. rewrite Hr. destruct ks as [|k ks']; [done|].
    unfold structural_error. rewrite decide_True; [done|].
    intros ->. by apply Hhead.
  - intros i p c Hhead Hp Hc Hbad Hbefore. rewrite Hr.
    destruct ks as [|k ks']; [done|]. injection Hhead as ->.
    unfold structural_error. rewrite decide_False by (by intros []).
    by destruct (first_bad_pair_first "source" ks' i p c Hp Hc Hbad Hbefore) as [-> _].
  - intros e He. rewrite Ho. split; [done|].
    unfold validate_and_build, mbind, M_bind.
    rewrite Hval. rewrite Hr in He. by rewrite He.
Qed.

(** C6 (as amended): on a chain in which a sink is followed by another
    component, [validate_pipeline] raises a [ValueError]; when the head is
    a source and every adjacent pair before that sink is allowed, the
    error is the invalid-sequence one naming [sink] and the type of the
    component after it. *)
Theorem validate_pipeline_after_sink (h : heap) (l : list loc)
    (entry_point : loc) (fuel : nat) (o : PipelineOrchestrator)
    (i : nat) (c : string) :
  chain h l → entry_point ∈ l → length l ≤ fuel →
  validate_rules o = default_rules →
  kinds h l !! i = Some "sink" → kinds h l !! S i = Some c →
  (∃ msg, (validate_pipeline fuel h entry_point o).1 = Raise (ValueError msg))
  ∧ (head (kinds h l) = Some "source" →
     (∀ (j : nat) x y, j < i → kinds h l !! j = Some x → kinds h l !! S j = Some y →
        allowed_successor x y) →
     (validate_pipeline fuel h entry_point o).1
     = Raise (ValueError (invalid_sequence "sink" c))).
Proof.
  intros Hchain Hentry Hfuel Hrules Hsink Hc.
  assert (Hbad : ¬ allowed_successor "sink" c) by (by intros [[?|?] _]).
  rewrite (validate_pipeline_default h l) by done. cbn [fst].
  split.
  - assert (Hsome : is_Some (structural_error (kinds h l))).
    { apply structural_error_Some; [by destruct (kinds h l)|].
      right; left. by exists i, "sink", c. }
    destruct Hsome as [e He]. rewrite He.
    destruct (structural_error_ValueError _ _ He) as [msg ->]. by exists msg.
  - intros Hhead Hbefore.
    destruct (kinds h l) as [|k ks']; [done|]. injection Hhead as ->.
    unfold structural_error. rewrite decide_False by (by intros []).
    by destruct (first_bad_pair_first "source" ks' i "sink" c Hsink Hc Hbad Hbefore)
      as [-> _].
Qed.

Lemma validate_kinds_Ok (rules : gmap string (list string)) (ks : list string)
    (n : nat) :
  validate_kinds rules ks = (Ok tt, n) → n = length ks.
Proof.
  destruct ks as [|k r]; [done|]. unfold validate_kinds.
  case_decide; [done|].
  destruct (walk_kinds rules None (k :: r)) as [[[]| | |] m] eqn:Hw; try done.
  intros Heq. apply walk_kinds_Ok in Hw. by simplify_eq.
Qed.

Lemma validate_kinds_source (rules : gmap string (list string)) (r : list string) :
  1 ≤ (validate_kinds rules ("source" :: r)).2.
Proof.
  unfold validate_kinds. rewrite decide_False by (by intros []).
  cbn [walk_kinds check_connection].
  destruct (walk_kinds rules (Some "source") r) as [[[]| | |] m]; simpl; lia.
Qed.

Lemma validate_kinds_no_source (rules : gmap string (list string))
    (k : string) (r : list string) :
  k ≠ "source" → validate_kinds rules (k :: r) = (Raise must_start_with_source, 0).
Proof. intros Hk. unfold validate_kinds. by rewrite decide_True. Qed.

(** C1 (as amended): two calls of [validate_pipeline] on the same chain
    and the same orchestrator both return, with the same outcome, and
    each appends the same sequence of components to the orchestrator's
    list: a prefix of the chain, all of it when the call succeeds, none
    of it when the head is not a source (with the table of [__init__]:
    the components up to the first violation).  After the second call the
    list holds that sequence twice after what it held before; when the
    head is a source the sequence starts with the head, and the list
    after the second call is not the list the first call left. *)
Theorem validate_pipeline_twice (h : heap) (l : list loc) (entry_point : loc)
    (fuel : nat) (o : PipelineOrchestrator) :
  chain h l → entry_point ∈ l → length l ≤ fuel →
  ∃ r v,
    returns r ∧ v `prefix_of` l
    ∧ validate_pipeline fuel h entry_point o = (r, extend o v)
    ∧ validate_pipeline fuel h entry_point (extend o v) = (r, extend o (v ++ v))
    ∧ components (extend o (v ++ v)) = components o ++ v ++ v
    ∧ (r = Ok tt → v = l)
    ∧ (head (kinds h l) = Some "source" →
       head v = head l
       ∧ components (extend o (v ++ v)) ≠ components (extend o v))
    ∧ (head (kinds h l) ≠ Some "source" →
       r = Raise must_start_with_source ∧ v = [])
    ∧ (validate_rules o = default_rules →
       r = outcome (structural_error (kinds h l))
       ∧ v = take (visited (kinds h l)) l).
Proof.
  intros Hchain Hentry Hfuel.
  assert (Hne : l ≠ []) by (by destruct Hchain).
  exists (validate_kinds (validate_rules o) (kinds h l)).1,
         (take (validate_kinds (validate_rules o) (kinds h l)).2 l).
  split.
  { apply validate_kinds_returns. by destruct l. }
  split; [apply prefix_take|].
  split; [by apply validate_pipeline_chain|].
  split.
  { rewrite (validate_pipeline_chain h l) by done. by rewrite extend_extend. }
  split; [done|].
  split.
  { intros Hok.
    destruct (validate_kinds (validate_rules o) (kinds h l)) as [r n] eqn:Hv.
    simpl in Hok. subst r. apply validate_kinds_Ok in Hv. subst n.
    cbn [snd]. unfold kinds. by rewrite length_fmap, firstn_all. }
  split.
  { intros Hhead. destruct l as [|x l']; [done|].
    cbn [kinds fmap list_fmap head] in Hhead. injection Hhead as Hx.
    pose proof (validate_kinds_source (validate_rules o) (kinds h l')) as Hn.
    cbn [kinds fmap list_fmap]. rewrite Hx. fold (kinds h l').
    destruct ((validate_kinds (validate_rules o) ("source" :: kinds h l')).2)
      as [|n]; [lia|].
    split; [done|]. cbn [take components extend].
    intros Heq. apply app_inv_head in Heq.
    apply (f_equal length) in Heq. rewrite length_app in Heq. simpl in Heq. lia. }
  split.
  { intros Hhead. destruct l as [|x l']; [done|].
    cbn [kinds fmap list_fmap head] in Hhead |- *.
    rewrite validate_kinds_no_source by congruence. done. }
  intros Hrules. rewrite Hrules, validate_kinds_default; [done|].
  by destruct l.
Qed.

(** *** Building the graph *)

Lemma graph_entry_spec (h : heap) (l : loc) (c : PipelineComponent)
    (o : PipelineOrchestrator) :
  h !! l = Some c →
  (∀ n, next_of h l = Some (Some n) → is_Some (h !! n)) →
  graph_entry h l c o = (Ok (entry_of h l), o).
Proof.
  intros Hc Hn. unfold graph_entry, entry_of, next_of, kind, type_of in *.
  rewrite Hc in *. simpl in *.
  destruct (next c) as [n|] eqn:Hnext; [|done].
  destruct (Hn n eq_refl) as [nc Hnc].
  unfold mbind, M_bind. rewrite (deref_Some _ _ _ _ Hnc). simpl.
  unfold name_of. by rewrite Hnc.
Qed.

Lemma build_loop_spec (h : heap) (cs : list loc) :
  ∀ o, buildable h cs →
    build_loop h cs o
    = (Ok tt, with_graph o (graph_of h (execution_graph o) cs)).
Proof.
  induction cs as [|l cs IH]; intros o Hb.
  - by destruct o.
  - apply Forall_cons in Hb as [[[c Hc] Hn] Hb].
    cbn [build_loop]. unfold mbind, M_bind at 1.
    rewrite (deref_Some _ _ _ _ Hc).
    unfold mbind, M_bind at 1. rewrite (graph_entry_spec _ _ _ _ Hc Hn).
    unfold mbind, M_bind, modify. rewrite IH by done.
    unfold with_graph, set_graph, graph_of, name_at, name_of. simpl.
    by rewrite Hc.
Qed.

Lemma build_execution_graph_spec (h : heap) (o : PipelineOrchestrator) :
  buildable h (components o) →
  build_execution_graph h o
  = (Ok (graph_of h (execution_graph o) (components o)),
     with_graph o (graph_of h (execution_graph o) (components o))).
Proof.
  intros Hb. unfold build_execution_graph, mbind, M_bind, get.
  by rewrite (build_loop_spec _ _ _ Hb).
Qed.

(** A key of the graph holds the record of the last listed component
    of that name. *)
Lemma graph_of_lookup (h : heap) (g : gmap string entry) (cs : list loc) (k : string) :
  graph_of h g cs !! k
  = match last (filter (λ l, name_at h l = k) cs) with
    | Some d => Some (entry_of h d)
    | None => g !! k
    end.
Proof.
  induction cs as [|x cs IH] using rev_ind; [done|].
  unfold graph_of. rewrite foldl_app. simpl. fold (graph_of h g cs).
  rewrite filter_app, filter_cons, filter_nil.
  destruct (decide (name_at h x = k)) as [<-|Hne].
  - by rewrite lookup_insert_eq, last_snoc.
  - by rewrite lookup_insert_ne, app_nil_r.
Qed.

Lemma filter_name_absent {A B} `{EqDecision B} (f : A → B) (l : list A) (b : B) :
  b ∉ f <$> l → filter (λ x, f x = b) l = [].
Proof.
  induction l as [|x l IH]; intros Hb; [done|].
  rewrite fmap_cons in Hb. apply not_elem_of_cons in Hb as [Hx Hb].
  rewrite filter_cons, decide_False by done. by apply IH.
Qed.

Lemma filter_name_unique {A B} `{EqDecision B} (f : A → B) (l : list A) (d : A) :
  NoDup (f <$> l) → d ∈ l → filter (λ x, f x = f d) l = [d].
Proof.
  induction l as [|x l IH]; intros Hnd Hd; [by apply elem_of_nil in Hd|].
  rewrite fmap_cons in Hnd. apply NoDup_cons in Hnd as [Hx Hnd].
  rewrite filter_cons.
  apply elem_of_cons in Hd as [->|Hd].
  - rewrite decide_True by done. f_equal.
    by apply filter_name_absent.
  - rewrite decide_False; [by apply IH|].
    intros Heq. apply Hx. rewrite Heq. by apply list_elem_of_fmap_2.
Qed.

(** The last component of a given name among [old ++ l], for a name
    that occurs in [l], is in [l]. *)
Lemma graph_of_member (h : heap) (g : gmap string entry) (old l : list loc) (d : loc) :
  d ∈ l →
  ∃ d', d' ∈ l ∧ name_at h d' = name_at h d
    ∧ graph_of h g (old ++ l) !! name_at h d = Some (entry_of h d')
    ∧ (NoDup (name_at h <$> l) → d' = d).
Proof.
  intros Hd. rewrite graph_of_lookup, filter_app.
  assert (Hin : d ∈ filter (λ x, name_at h x = name_at h d) l)
    by (by apply list_elem_of_filter).
  destruct (last (filter (λ x, name_at h x = name_at h d) l)) as [d'|] eqn:Hlast.
  - exists d'. rewrite last_app, Hlast.
    apply last_Some_elem_of in Hlast as Hd'.
    apply list_elem_of_filter in Hd' as [Hname Hd'].
    repeat split; try done.
    intros Hnd. rewrite (filter_name_unique _ _ _ Hnd Hd) in Hlast.
    by injection Hlast.
  - apply last_None in Hlast. rewrite Hlast in Hin. by apply elem_of_nil in Hin.
Qed.

Lemma entry_of_dom (h : heap) (l : loc) : dom (entry_of h l) = entry_keys.
Proof.
  unfold entry_of, entry_keys. rewrite !dom_insert_L, dom_empty_L.
  set_solver.
Qed.

Lemma segment_next (h : heap) (p : option loc) (l : list loc) (i : nat) (x : loc) :
  segment h p l → l !! i = Some x → next_of h x = Some (l !! S i).
Proof.
  revert p i. induction l as [|y l IH]; intros p i Hs Hx; [done|].
  destruct Hs as (_ & Hn & Hs).
  destruct i as [|i]; simpl in Hx.
  - simplify_eq. rewrite Hn. by destruct l.
  - by apply (IH _ _ Hs).
Qed.

Lemma entry_of_fields (h : heap) (l : list loc) (i : nat) (d : loc) :
  chain h l → l !! i = Some d →
  entry_of h d !! "type" = Some (VStr (kind h d))
  ∧ entry_of h d !! "next"
    = Some (match l !! S i with
            | Some nx => VStr (name_at h nx)
            | None => VNone
            end)
  ∧ entry_of h d !! "component" = Some (VObj d)
  ∧ (∀ c, h !! d = Some c → entry_of h d !! "config" = Some (config c)).
Proof.
  intros [_ Hs] Hd. unfold entry_of.
  rewrite (segment_next _ _ _ _ _ Hs Hd).
  split; [by rewrite lookup_insert_eq|].
  split; [rewrite lookup_insert_ne, lookup_insert_eq by done;
          by destruct (l !! S i)|].
  split; [by rewrite !lookup_insert_ne, lookup_insert_eq by done|].
  intros c Hc. rewrite !lookup_insert_ne, lookup_insert_eq by done. by rewrite Hc.
Qed.

(** The last element of a list that satisfies [P]. *)
Lemma last_filter_index {A} (P : A → Prop) `{∀ x, Decision (P x)}
    (l : list A) (d : A) :
  last (filter P l) = Some d →
  ∃ i : nat, l !! i = Some d ∧ P d
    ∧ ∀ (j : nat) x, i < j → l !! j = Some x → ¬ P x.
Proof.
  induction l as [|x l IH] using rev_ind; [done|].
  rewrite filter_app, filter_cons, filter_nil.
  destruct (decide (P x)) as [Hx|Hx].
  - rewrite last_snoc. intros [= <-]. exists (length l).
    split; [by rewrite lookup_app_r, Nat.sub_diag by lia|]. split; [done|].
    intros j y Hj Hy. apply lookup_lt_Some in Hy.
    rewrite length_app in Hy. simpl in Hy. lia.
  - rewrite app_nil_r. intros Hlast.
    destruct (IH Hlast) as (i & Hi & Hd & Hafter).
    exists i. split; [by apply lookup_app_l_Some|]. split; [done|].
    intros j y Hj Hy.
    destruct (decide (j < length l)) as [Hlt|Hge].
    + rewrite lookup_app_l in Hy by done. by eapply Hafter.
    + pose proof (lookup_lt_Some _ _ _ Hy) as Hlen.
      rewrite length_app in Hlen. simpl in Hlen.
      assert (j = length l) as -> by lia.
      rewrite lookup_app_r, Nat.sub_diag in Hy by lia. by simplify_eq/=.
Qed.

(** Under a name borne in [l], the graph of [old ++ l] holds the record
    of the last component of [l] bearing it. *)
Lemma graph_of_last (h : heap) (g : gmap string entry) (old l : list loc) (d : loc) :
  d ∈ l →
  ∃ (i : nat) d', l !! i = Some d' ∧ name_at h d' = name_at h d
    ∧ (∀ (j : nat) x, i < j → l !! j = Some x → name_at h x ≠ name_at h d)
    ∧ graph_of h g (old ++ l) !! name_at h d = Some (entry_of h d')
    ∧ (NoDup (name_at h <$> l) → d' = d).
Proof.
  intros Hd. rewrite graph_of_lookup, filter_app.
  assert (Hin : d ∈ filter (λ x, name_at h x = name_at h d) l)
    by (by apply list_elem_of_filter).
  destruct (last (filter (λ x, name_at h x = name_at h d) l)) as [d'|] eqn:Hlast.
  - destruct (last_filter_index _ _ _ Hlast) as (i & Hi & Hname & Hafter).
    exists i, d'. rewrite last_app, Hlast.
    repeat split; try done.
    intros Hnd. rewrite (filter_name_unique _ _ _ Hnd Hd) in Hlast.
    by injection Hlast.
  - apply last_None in Hlast. rewrite Hlast in Hin. by apply elem_of_nil in Hin.
Qed.

Lemma chain_buildable (h : heap) (l : list loc) : chain h l → buildable h l.
Proof.
  intros [_ Hs]. apply Forall_forall. intros x Hx.
  split; [by eapply segment_alloc|].
  intros n Hn. apply list_elem_of_lookup in Hx as [i Hi].
  rewrite (segment_next _ _ _ _ _ Hs Hi) in Hn.
  eapply segment_alloc; [done|].
  apply list_elem_of_lookup. exists (S i). congruence.
Qed.

Lemma structural_error_None_visited (ks : list string) :
  structural_error ks = None → visited ks = length ks.
Proof.
  destruct ks as [|k r]; [done|]. unfold structural_error, visited.
  case_decide; [done|].
  destruct (first_bad_pair k r) as [[p c]|] eqn:Hbad; [done|].
  intros _. simpl. by rewrite legal_prefix_None.
Qed.

Lemma buildable_extend (h : heap) (l : list loc) (cs : list loc) (n : nat) :
  chain h l → buildable h cs → buildable h (cs ++ take n l).
Proof.
  intros Hchain Hcs. apply Forall_app. split; [done|].
  apply Forall_take. by apply chain_buildable.
Qed.

(** C2 (as amended): after a successful validation of a chain, the graph
    built holds, under the name of every component of the chain, a record
    of exactly four fields: [type], [next] (the name of the successor, or
    [None]), [config] and [component] (the component itself).  The record
    is that of the last component of the chain bearing the name, which is
    the component itself when names are unique.  No field holds the
    source or sink type. *)
Theorem build_execution_graph_entries (h : heap) (l : list loc) (entry_point : loc)
    (fuel : nat) (o : PipelineOrchestrator) (d : loc) :
  chain h l → entry_point ∈ l → length l ≤ fuel →
  validate_rules o = default_rules →
  buildable h (components o) →
  (validate_pipeline fuel h entry_point o).1 = Ok tt →
  d ∈ l →
  let o1 := (validate_pipeline fuel h entry_point o).2 in
  ∃ g d' (i : nat),
    build_execution_graph h o1 = (Ok g, with_graph o1 g)
    ∧ d' ∈ l ∧ name_at h d' = name_at h d
    ∧ g !! name_at h d = Some (entry_of h d')
    ∧ dom (entry_of h d') = entry_keys
    ∧ (NoDup (name_at h <$> l) → d' = d)
    ∧ l !! i = Some d'
    ∧ (∀ (j : nat) x, i < j → l !! j = Some x → name_at h x ≠ name_at h d)
    ∧ entry_of h d' !! "type" = Some (VStr (kind h d'))
    ∧ entry_of h d' !! "next"
      = Some (match l !! S i with
              | Some nx => VStr (name_at h nx)
              | None => VNone
              end)
    ∧ entry_of h d' !! "component" = Some (VObj d')
    ∧ (∀ c, h !! d' = Some c → entry_of h d' !! "config" = Some (config c)).
Proof.
  intros Hchain Hentry Hfuel Hrules Hbuild Hok Hd o1.
  assert (Ho1 : o1 = extend o l).
  { unfold o1. rewrite (validate_pipeline_default h l) in Hok |- * by done.
    simpl in *. destruct (structural_error (kinds h l)) as [e|] eqn:He; [done|].
    rewrite (structural_error_None_visited _ He).
    unfold kinds. by rewrite length_fmap, firstn_all. }
  clearbody o1. subst o1.
  assert (Hb1 : buildable h (components (extend o l))).
  { simpl. rewrite <-(firstn_all l). by apply buildable_extend. }
  destruct (graph_of_last h (execution_graph o) (components o) l d Hd)
    as (i & d' & Hi & Hname & Hafter & Hlook & Huniq).
  destruct (entry_of_fields h l i d' Hchain Hi) as (Hty & Hnx & Hco & Hcfg).
  exists (graph_of h (execution_graph (extend o l)) (components (extend o l))), d', i.
  split; [by apply build_execution_graph_spec|].
  split; [apply list_elem_of_lookup; by exists i|].
  split; [done|]. split; [done|].
  split; [apply entry_of_dom|].
  split; [done|]. split; [done|]. split; [done|].
  by repeat split.
Qed.

(** C9: when [validate_pipeline] raises on a chain, the components passed
    before the violation stay appended to the orchestrator's list (none
    when the head is not a source, those up to the first member of the
    first illegal pair, all of them when only the final sink is missing);
    [build_execution_graph] on the same orchestrator then returns a graph
    with a record under the name of each of them. *)
Theorem validate_pipeline_no_rollback (h : heap) (l : list loc) (entry_point : loc)
    (fuel : nat) (o : PipelineOrchestrator) :
  chain h l → entry_point ∈ l → length l ≤ fuel →
  validate_rules o = default_rules →
  buildable h (components o) →
  is_raise (validate_pipeline fuel h entry_point o).1 →
  let ks := kinds h l in
  let o' := (validate_pipeline fuel h entry_point o).2 in
  components o' = components o ++ take (visited ks) l
  ∧ (∀ (i : nat) p c,
       head ks = Some "source" →
       ks !! i = Some p → ks !! S i = Some c → ¬ allowed_successor p c →
       (∀ (j : nat) x y, j < i → ks !! j = Some x → ks !! S j = Some y →
          allowed_successor x y) →
       visited ks = S i)
  ∧ (head ks = Some "source" →
     (∀ (j : nat) x y, ks !! j = Some x → ks !! S j = Some y →
        allowed_successor x y) →
     visited ks = length l)
  ∧ ∃ g,
      build_execution_graph h o' = (Ok g, with_graph o' g)
      ∧ ∀ d, d ∈ take (visited ks) l →
          ∃ d', d' ∈ take (visited ks) l ∧ name_at h d' = name_at h d
            ∧ g !! name_at h d = Some (entry_of h d').
Proof.
  intros Hchain Hentry Hfuel Hrules Hbuild Hraise ks o'.
  assert (Ho : o' = extend o (take (visited ks) l)).
  { unfold o'. by rewrite (validate_pipeline_default h l). }
  clearbody o'. subst o'.
  split; [done|].
  split; [|split].
  - intros i p c Hhead Hp Hc Hbad Hbefore.
    destruct ks as [|k ks']; [done|]. injection Hhead as ->.
    unfold visited. rewrite decide_False by (by intros []).
    by destruct (first_bad_pair_first "source" ks' i p c Hp Hc Hbad Hbefore) as [_ ->].
  - intros Hhead Hall.
    rewrite <-(length_fmap (kind h) l). fold (kinds h l). fold ks.
    destruct ks as [|k ks']; [done|]. injection Hhead as ->.
    unfold visited. rewrite decide_False by (by intros []).
    simpl. f_equal. apply legal_prefix_None, first_bad_pair_None. done.
  - eexists. split.
    + apply build_execution_graph_spec. simpl. by apply buildable_extend.
    + intros d Hd.
      destruct (graph_of_member h (execution_graph o) (components o)
                  (take (visited ks) l) d Hd) as (d' & Hd' & Hname & Hlook & _).
      by exists d'.
Qed.

End OrchestratorFacts.

(** ** The demonstration pipeline and three small stores *)

Module Scenarios.
Import Decorators Orchestrator Main DecoratorsFacts OrchestratorFacts.

Local Ltac chain_by_compute := split; [done | vm_compute; repeat split].

(** C1, counterexample: validating the demonstration pipeline twice with
    one orchestrator leaves, after the second call, a list that is not the
    list the first call left. *)
Lemma validate_pipeline_twice_grows :
  let o1 := (validate_pipeline 3 demo 3%positive new_orchestrator).2 in
  let o2 := (validate_pipeline 3 demo 3%positive o1).2 in
  chain demo [1; 2; 3]%positive
  ∧ components o1 = [1; 2; 3]%positive
  ∧ components o2 = [1; 2; 3; 1; 2; 3]%positive
  ∧ components o2 ≠ components o1.
Proof.
  split; [chain_by_compute|].
  vm_compute. repeat split. discriminate.
Qed.

Lemma validate_pipeline_twice_witness :
  ∃ r v,
    returns r ∧ v `prefix_of` [1; 2; 3]%positive
    ∧ validate_pipeline 3 demo 3%positive new_orchestrator
      = (r, extend new_orchestrator v)
    ∧ validate_pipeline 3 demo 3%positive (extend new_orchestrator v)
      = (r, extend new_orchestrator (v ++ v))
    ∧ components (extend new_orchestrator (v ++ v))
      = components new_orchestrator ++ v ++ v
    ∧ (r = Ok tt → v = [1; 2; 3]%positive)
    ∧ (head (kinds demo [1; 2; 3]%positive) = Some "source" →
       head v = head [1; 2; 3]%positive
       ∧ components (extend new_orchestrator (v ++ v))
         ≠ components (extend new_orchestrator v))
    ∧ (head (kinds demo [1; 2; 3]%positive) ≠ Some "source" →
       r = Raise must_start_with_source ∧ v = [])
    ∧ (validate_rules new_orchestrator = default_rules →
       r = outcome (structural_error (kinds demo [1; 2; 3]%positive))
       ∧ v = take (visited (kinds demo [1; 2; 3]%positive)) [1; 2; 3]%positive).
Proof.
  apply (validate_pipeline_twice demo [1; 2; 3]%positive 3%positive 3 new_orchestrator);
    [chain_by_compute | compute_done | simpl; lia].
Defined.

(** C2, counterexample: the record built for the source of the
    demonstration pipeline, whose source type is [kafka], is not the
    five-field record of the specification: it has four fields, and none
    of them holds the source type. *)
Lemma graph_entry_without_subtype :
  let o1 := (validate_pipeline 3 demo 3%positive new_orchestrator).2 in
  ∃ g e c,
    (build_execution_graph demo o1).1 = Ok g
    ∧ demo !! 1%positive = Some c
    ∧ cls c = SourceComponent "kafka"
    ∧ g !! name c = Some e
    ∧ e ≠ spec_entry demo 1%positive c
    ∧ dom e = entry_keys
    ∧ ∀ k, e !! k ≠ Some (subtype_value c).
Proof.
  intros o1.
  assert (Hc : is_Some (demo !! 1%positive)) by compute_done.
  destruct Hc as [c Hc].
  exists (graph_of demo ∅ [1; 2; 3]%positive), (entry_of demo 1%positive), c.
  assert (Hcls : cls c = SourceComponent "kafka").
  { apply (f_equal (fmap cls)) in Hc. vm_compute in Hc. by injection Hc. }
  assert (Hname : name c = "read_from_kafka").
  { apply (f_equal (fmap name)) in Hc. vm_compute in Hc. by injection Hc. }
  split.
  { unfold o1. rewrite build_execution_graph_spec.
    - vm_compute. reflexivity.
    - assert (Hcs : components (validate_pipeline 3 demo 3%positive new_orchestrator).2
                    = [1; 2; 3]%positive) by (vm_compute; reflexivity).
      rewrite Hcs. apply chain_buildable. chain_by_compute. }
  split; [done|]. split; [done|].
  split; [rewrite Hname; vm_compute; reflexivity|].
  split.
  { intros Heq. apply (f_equal (lookup "subtype")) in Heq.
    unfold spec_entry in Heq.
    rewrite lookup_insert_ne, lookup_insert_eq in Heq by done.
    unfold entry_of in Heq.
    rewrite !lookup_insert_ne, lookup_empty in Heq by done. discriminate. }
  split; [apply entry_of_dom|].
  intros k Hk. unfold subtype_value in Hk. rewrite Hcls in Hk.
  unfold entry_of in Hk.
  repeat (rewrite lookup_insert in Hk; case_decide; [vm_compute in Hk; discriminate|]).
  by rewrite lookup_empty in Hk.
Qed.

Lemma build_execution_graph_entries_witness :
  let o1 := (validate_pipeline 3 demo 3%positive new_orchestrator).2 in
  ∃ g d',
    build_execution_graph demo o1 = (Ok g, with_graph o1 g)
    ∧ d' ∈ [1; 2; 3]%positive ∧ name_at demo d' = name_at demo 1%positive
    ∧ g !! name_at demo 1%positive = Some (entry_of demo d')
    ∧ dom (entry_of demo d') = entry_keys
    ∧ (NoDup (name_at demo <$> [1; 2; 3]%positive) → d' = 1%positive).
Proof.
  intros o1.
  destruct (build_execution_graph_entries demo [1; 2; 3]%positive 3%positive 3
           new_orchestrator 1%positive)
    as (g & d' & i & Hg & Hd' & Hname & Hlook & Hdom & Hu & _);
    [chain_by_compute | compute_done | simpl; lia | reflexivity
    | by apply Forall_nil | vm_compute; reflexivity | compute_done |].
  by exists g, d'.
Defined.

Lemma validate_pipeline_valid_chain_witness :
  validate_pipeline 3 demo 3%positive new_orchestrator
  = (Ok tt, extend new_orchestrator [1; 2; 3]%positive)
  ∧ length [1; 2; 3]%positive = 1 + 2
  ∧ (components new_orchestrator = [] →
     components (validate_pipeline 3 demo 3%positive new_orchestrator).2
     = [1; 2; 3]%positive).
Proof.
  apply (validate_pipeline_valid_chain demo [1; 2; 3]%positive 3%positive 3
           new_orchestrator 1);
    [chain_by_compute | compute_done | simpl; lia | reflexivity
    | vm_compute; reflexivity].
Defined.

Lemma validate_pipeline_structural_error_witness :
  (validate_pipeline 3 sink_then_transform 3%positive new_orchestrator).1
  = outcome (structural_error (kinds sink_then_transform [1; 2; 3]%positive)).
Proof.
  apply (validate_pipeline_structural_error sink_then_transform [1; 2; 3]%positive
           3%positive 3 new_orchestrator);
    [chain_by_compute | compute_done | simpl; lia | reflexivity].
Defined.

(** C5, counterexample: after [s1 >> k1] and then [t1 >> k1], [s1.next] is
    [k1] while [k1.previous] is [t1]. *)
Lemma relinked_inconsistent :
  relinked = links [(1, 2); (3, 2)]%positive unlinked
  ∧ next_of relinked 1%positive = Some (Some 2%positive)
  ∧ previous_of relinked 2%positive = Some (Some 3%positive)
  ∧ ¬ consistent relinked.
Proof.
  split; [reflexivity|].
  assert (Hn : next_of relinked 1%positive = Some (Some 2%positive))
    by (vm_compute; reflexivity).
  assert (Hp : previous_of relinked 2%positive = Some (Some 3%positive))
    by (vm_compute; reflexivity).
  split; [done|]. split; [done|].
  intros Hc. apply Hc in Hn. rewrite Hp in Hn. discriminate.
Qed.

Lemma links_consistent_witness :
  consistent (links (take 2 [(1, 2); (2, 3)]%positive) unlinked).
Proof.
  apply (links_consistent unlinked [(1, 2); (2, 3)]%positive).
  - apply unlinked_consistent. compute_done.
  - vm_compute. repeat split.
Defined.

(** C6, counterexample: in the chain [t1; k1; s1] a sink is followed by
    another component, and [validate_pipeline] raises the missing-source
    error, which is not an invalid-sequence error. *)
Lemma sink_successor_missing_source :
  chain transform_first [3; 2; 1]%positive
  ∧ kinds transform_first [3; 2; 1]%positive = ["transform"; "sink"; "source"]
  ∧ (validate_pipeline 3 transform_first 1%positive new_orchestrator).1
    = Raise must_start_with_source
  ∧ ∀ p c, must_start_with_source ≠ ValueError (invalid_sequence p c).
Proof.
  split; [chain_by_compute|].
  split; [vm_compute; reflexivity|].
  split; [vm_compute; reflexivity|].
  intros p c. unfold must_start_with_source, invalid_sequence. simpl. discriminate.
Qed.

Lemma validate_pipeline_after_sink_witness :
  (∃ msg, (validate_pipeline 3 sink_then_transform 3%positive new_orchestrator).1
          = Raise (ValueError msg))
  ∧ (head (kinds sink_then_transform [1; 2; 3]%positive) = Some "source" →
     (∀ (j : nat) x y, j < 1 →
        kinds sink_then_transform [1; 2; 3]%positive !! j = Some x →
        kinds sink_then_transform [1; 2; 3]%positive !! S j = Some y →
        allowed_successor x y) →
     (validate_pipeline 3 sink_then_transform 3%positive new_orchestrator).1
     = Raise (ValueError (invalid_sequence "sink" "transform"))).
Proof.
  apply (validate_pipeline_after_sink sink_then_transform [1; 2; 3]%positive
           3%positive 3 new_orchestrator 1 "transform");
    [chain_by_compute | compute_done | simpl; lia | reflexivity
    | vm_compute; reflexivity | vm_compute; reflexivity].
Defined.

Lemma rshift_links_witness :
  next_of (rshift 1%positive 2%positive unlinked).2 1%positive = Some (Some 2%positive)
  ∧ chain (rshift (rshift 1%positive 2%positive unlinked).1 3%positive
             (rshift 1%positive 2%positive unlinked).2).2 [1; 2; 3]%positive.
Proof.
  destruct (rshift_links unlinked 1%positive 2%positive)
    as (_ & Hn & _ & _ & _ & _ & _ & Hchain); [compute_done | compute_done |].
  split; [exact Hn|].
  apply (Hchain 3%positive);
    [compute_done | done | done | vm_compute; reflexivity
    | vm_compute; reflexivity | done].
Defined.

Lemma get_first_component_chain_witness :
  ∃ hd, head [1; 2; 3]%positive = Some hd
    ∧ (∀ fuel : nat, length [1; 2; 3]%positive ≤ fuel →
         get_first_component fuel demo 3%positive = Ok hd)
    ∧ previous_of demo hd = Some None
    ∧ ∀ x, x ∈ [1; 2; 3]%positive → previous_of demo x = Some None → x = hd.
Proof.
  apply (get_first_component_chain demo [1; 2; 3]%positive 3%positive);
    [chain_by_compute | compute_done].
Defined.

Lemma validate_pipeline_no_rollback_witness :
  components (validate_pipeline 3 sink_then_transform 3%positive new_orchestrator).2
  = components new_orchestrator
    ++ take (visited (kinds sink_then_transform [1; 2; 3]%positive)) [1; 2; 3]%positive.
Proof.
  apply (validate_pipeline_no_rollback sink_then_transform [1; 2; 3]%positive
           3%positive 3 new_orchestrator);
    [chain_by_compute | compute_done | simpl; lia | reflexivity
    | by apply Forall_nil | vm_compute; exact I].
Defined.

End Scenarios.

(** * Further properties *)

(** ** Components and links *)

Module DecoratorsMore.
Import Decorators Main DecoratorsFacts.

Local Ltac chain_by_compute := split; [done | vm_compute; repeat split].

(** X1: the components of a chain are pairwise distinct objects: a chain
    never passes twice through the same component. *)
Theorem chain_NoDup (h : heap) (l : list loc) : chain h l → NoDup l.
Proof.
  intros [_ Hs]. apply NoDup_alt. intros i.
  induction i as [|i IH]; intros j x Hi Hj.
  - destruct j as [|j]; [done|].
    pose proof (segment_previous _ _ _ _ _ Hs Hi) as H0.
    pose proof (segment_previous _ _ _ _ _ Hs Hj) as HS.
    rewrite H0 in HS. simpl in HS.
    pose proof (lookup_lt_Some _ _ _ Hj) as Hlt.
    destruct (lookup_lt_is_Some_2 l j) as [y Hy]; [lia|]. congruence.
  - destruct j as [|j].
    + pose proof (segment_previous _ _ _ _ _ Hs Hi) as HS.
      pose proof (segment_previous _ _ _ _ _ Hs Hj) as H0.
      rewrite H0 in HS. simpl in HS.
      pose proof (lookup_lt_Some _ _ _ Hi) as Hlt.
      destruct (lookup_lt_is_Some_2 l i) as [y Hy]; [lia|]. congruence.
    + f_equal.
      pose proof (segment_previous _ _ _ _ _ Hs Hi) as HSi.
      pose proof (segment_previous _ _ _ _ _ Hs Hj) as HSj.
      rewrite HSi in HSj. simpl in HSj.
      pose proof (lookup_lt_Some _ _ _ Hi) as Hlt.
      destruct (lookup_lt_is_Some_2 l i) as [y Hy]; [lia|].
      apply (IH j y); [done|]. congruence.
Qed.

Lemma chain_NoDup_witness : NoDup [1; 2; 3]%positive.
Proof. apply (chain_NoDup demo). chain_by_compute. Defined.

Lemma set_next_set_next (n m : option loc) (c : PipelineComponent) :
  set_next n (set_next m c) = set_next n c.
Proof. done. Qed.

Lemma set_previous_set_previous (n m : option loc) (c : PipelineComponent) :
  set_previous n (set_previous m c) = set_previous n c.
Proof. done. Qed.

Lemma set_next_set_previous (n p : option loc) (c : PipelineComponent) :
  set_next n (set_previous p c) = set_previous p (set_next n c).
Proof. done. Qed.

(** The object a link leaves at a reference. *)
Lemma lookup_rshift (h : heap) (a b l : loc) :
  (rshift a b h).2 !! l
  = (if decide (l = b) then set_previous (Some a) else id)
      <$> ((if decide (l = a) then set_next (Some b) else id) <$> h !! l).
Proof.
  unfold rshift; simpl. rewrite !lookup_alter.
  repeat case_decide; simplify_eq; try done; by destruct (h !! _) as [c|].
Qed.

(** X2: linking the same pair again changes nothing: [a >> b] twice is
    [a >> b] once. *)
Theorem rshift_idempotent (h : heap) (a b : loc) :
  rshift a b (rshift a b h).2 = rshift a b h.
Proof.
  apply injective_projections; [done|].
  apply map_eq. intros l. rewrite !lookup_rshift.
  destruct (h !! l) as [c|]; repeat case_decide; done.
Qed.

(** X3: two links that share neither their left nor their right operand
    can be made in either order. *)
Theorem rshift_commute (h : heap) (a b c d : loc) :
  a ≠ c → b ≠ d →
  (rshift c d (rshift a b h).2).2 = (rshift a b (rshift c d h).2).2.
Proof.
  intros Hac Hbd. apply map_eq. intros l. rewrite !lookup_rshift.
  destruct (h !! l) as [x|]; repeat case_decide; simplify_eq; done.
Qed.

Lemma rshift_commute_witness :
  (rshift 2%positive 3%positive (rshift 1%positive 2%positive unlinked).2).2
  = (rshift 1%positive 2%positive (rshift 2%positive 3%positive unlinked).2).2.
Proof. apply rshift_commute; done. Defined.

(** X4: a link never unlinks.  After [a >> b] and then [a >> c] with
    another component [c], [a.next] is [c] and [c.previous] is [a], but
    [b.previous] is still [a]: the store is no longer consistent, and
    walking back from [b] still goes through [a]. *)
Theorem rshift_keeps_old_successor (h : heap) (a b c : loc) :
  is_Some (h !! a) → is_Some (h !! b) → is_Some (h !! c) → b ≠ c →
  let h2 := (rshift a c (rshift a b h).2).2 in
  next_of h2 a = Some (Some c)
  ∧ previous_of h2 c = Some (Some a)
  ∧ previous_of h2 b = Some (Some a)
  ∧ ¬ consistent h2
  ∧ ∀ fuel, get_first_component (S fuel) h2 b = get_first_component fuel h2 a.
Proof.
  intros Ha Hb Hc Hbc h2.
  assert (Hna : next_of h2 a = Some (Some c)).
  { apply rshift_next. by apply is_Some_rshift. }
  assert (Hpc : previous_of h2 c = Some (Some a)).
  { apply rshift_previous. by apply is_Some_rshift. }
  assert (Hpb : previous_of h2 b = Some (Some a)).
  { unfold h2. rewrite previous_of_rshift, decide_False by done.
    by apply rshift_previous. }
  split; [done|]. split; [done|]. split; [done|]. split.
  - intros Hcons. apply Hcons in Hpb. rewrite Hna in Hpb. by simplify_eq.
  - intros fuel. by apply get_first_component_step.
Qed.

Lemma rshift_keeps_old_successor_witness :
  previous_of bypassed 3%positive = Some (Some 1%positive) ∧ ¬ consistent bypassed.
Proof.
  destruct (rshift_keeps_old_successor unlinked 1%positive 3%positive 2%positive)
    as (_ & _ & Hp & Hc & _); [compute_done | compute_done | compute_done | done |].
  split; [exact Hp | exact Hc].
Defined.

(** *** Chaining any number of new components *)

Lemma links_cons (ab : loc * loc) (ops : list (loc * loc)) (h : heap) :
  links (ab :: ops) h = links ops (rshift ab.1 ab.2 h).2.
Proof. reflexivity. Qed.

Lemma links_next_frame (ops : list (loc * loc)) :
  ∀ (h : heap) (x : loc), x ∉ ops.*1 → next_of (links ops h) x = next_of h x.
Proof.
  induction ops as [|[a b] ops IH]; intros h x Hx; [done|].
  rewrite fmap_cons in Hx. apply not_elem_of_cons in Hx as [Hxa Hx].
  rewrite links_cons, IH by done. cbn [fst snd].
  by rewrite next_of_rshift, decide_False.
Qed.

Lemma links_previous_frame (ops : list (loc * loc)) :
  ∀ (h : heap) (x : loc), x ∉ ops.*2 → previous_of (links ops h) x = previous_of h x.
Proof.
  induction ops as [|[a b] ops IH]; intros h x Hx; [done|].
  rewrite fmap_cons in Hx. apply not_elem_of_cons in Hx as [Hxb Hx].
  rewrite links_cons, IH by done. cbn [fst snd].
  by rewrite previous_of_rshift, decide_False.
Qed.

Lemma links_payload (ops : list (loc * loc)) :
  ∀ (h : heap) (x : loc), payload <$> links ops h !! x = payload <$> h !! x.
Proof.
  induction ops as [|[a b] ops IH]; intros h x; [done|].
  by rewrite links_cons, IH, payload_rshift.
Qed.

Lemma links_kind (ops : list (loc * loc)) (h : heap) (x : loc) :
  kind (links ops h) x = kind h x.
Proof.
  pose proof (links_payload ops h x) as Hp.
  unfold kind, type_of.
  destruct (links ops h !! x) as [c|], (h !! x) as [c'|]; by simplify_eq/=.
Qed.

Lemma links_name (ops : list (loc * loc)) (h : heap) (x : loc) :
  name_of (links ops h) x = name_of h x.
Proof.
  pose proof (links_payload ops h x) as Hp.
  unfold name_of.
  destruct (links ops h !! x) as [c|], (h !! x) as [c'|]; simplify_eq/=;
    [congruence|done].
Qed.

Lemma chained_cons (x y : loc) (r : list loc) :
  chained (x :: y :: r) = (x, y) :: chained (y :: r).
Proof. reflexivity. Qed.

Lemma chained_fst (l : list loc) (z : loc) : z ∈ (chained l).*1 → z ∈ l.
Proof.
  unfold chained. intros Hz.
  apply list_elem_of_fmap in Hz as ([a b] & -> & Hab).
  by apply elem_of_zip_l in Hab.
Qed.

Lemma chained_snd (l : list loc) (z : loc) : z ∈ (chained l).*2 → z ∈ tail l.
Proof.
  unfold chained. intros Hz.
  apply list_elem_of_fmap in Hz as ([a b] & -> & Hab).
  by apply elem_of_zip_r in Hab.
Qed.

(** Linking new components from left to right makes a segment. *)
Lemma links_chained_segment (l : list loc) :
  ∀ (h : heap) (p : option loc),
    NoDup l →
    Forall (λ x, next_of h x = Some None) l →
    Forall (λ x, previous_of h x = Some None) (tail l) →
    (∀ x, head l = Some x → previous_of h x = Some p) →
    segment (links (chained l) h) p l.
Proof.
  induction l as [|x l IH]; intros h p Hnd Hnext Hprev Hhead; [done|].
  apply NoDup_cons in Hnd as [Hx Hnd].
  apply Forall_cons in Hnext as [Hnx Hnext].
  specialize (Hhead x eq_refl). simpl in Hprev.
  destruct l as [|y r].
  { simpl. done. }
  rewrite chained_cons, links_cons. cbn [fst snd].
  apply Forall_cons in Hprev as [Hpy Hprev].
  pose proof Hnext as Hnext'. apply Forall_cons in Hnext' as [Hny _].
  assert (Hxy : x ≠ y) by (intros ->; apply Hx, list_elem_of_here).
  split; [|split].
  - rewrite links_previous_frame.
    + by rewrite previous_of_rshift, decide_False.
    + intros Hin. apply chained_snd in Hin. simpl in Hin.
      apply Hx. by apply list_elem_of_further.
  - rewrite links_next_frame.
    + apply rshift_next. apply next_of_alloc. by rewrite Hnx.
    + intros Hin. by apply chained_fst in Hin.
  - apply IH; [done| | |].
    + apply Forall_forall. intros z Hz.
      rewrite next_of_rshift, decide_False.
      * by apply (proj1 (Forall_forall _ _) Hnext).
      * intros ->. done.
    + apply NoDup_cons in Hnd as [Hy _].
      apply Forall_forall. intros z Hz.
      rewrite previous_of_rshift, decide_False.
      * by apply (proj1 (Forall_forall _ _) Hprev).
      * intros ->. done.
    + intros ? [= <-]. apply rshift_previous.
      apply previous_of_alloc. by rewrite Hpy.
Qed.

Lemma links_chained_chain (h : heap) (l : list loc) :
  l ≠ [] → NoDup l → Forall (unlinked_at h) l → chain (links (chained l) h) l.
Proof.
  intros Hne Hnd Hall. split; [done|].
  apply links_chained_segment; [done| | |].
  - eapply Forall_impl; [exact Hall|]. by intros x [? ?].
  - apply Forall_tail. eapply Forall_impl; [exact Hall|]. by intros x [? ?].
  - intros x Hx. apply head_Some in Hx as [r ->].
    apply Forall_cons in Hall as [[_ Hp] _]. done.
Qed.

(** X5: [x0 >> x1 >> ... >> xn] on distinct components that are not
    linked yet makes the chain [x0; x1; ...; xn], and changes no name,
    type, function, config or class of any object. *)
Theorem chained_links_make_chain (h : heap) (l : list loc) :
  l ≠ [] → NoDup l → Forall (unlinked_at h) l →
  chain (links (chained l) h) l
  ∧ dom (links (chained l) h) = dom h
  ∧ ∀ x, payload <$> links (chained l) h !! x = payload <$> h !! x.
Proof.
  intros Hne Hnd Hall.
  split; [by apply links_chained_chain|].
  split; [|apply links_payload].
  generalize (chained l). intros ops. revert h Hall.
  induction ops as [|[a b] ops IH]; intros h Hall; [done|].
  rewrite links_cons. 
  assert (Hdom : ∀ h', dom (links ops h') = dom h').
  { clear. induction ops as [|[a b] ops IH]; intros h'; [done|].
    by rewrite links_cons, IH, dom_rshift. }
  by rewrite Hdom, dom_rshift.
Qed.

Lemma chained_links_make_chain_witness :
  chain (links (chained [1; 3; 2]%positive) unlinked) [1; 3; 2]%positive.
Proof.
  apply (chained_links_make_chain unlinked [1; 3; 2]%positive);
    [done | compute_done | ].
  repeat constructor; vm_compute; reflexivity.
Defined.

(** X6: where every component that can be reached by walking back has a
    predecessor (the [previous] references run into a cycle),
    [get_first_component] does not return, whatever the fuel. *)
Theorem get_first_component_cycle (h : heap) (P : loc → Prop) (d : loc) :
  (∀ x, P x → ∃ p, previous_of h x = Some (Some p) ∧ P p) →
  P d →
  ∀ fuel, get_first_component fuel h d = Timeout.
Proof.
  intros Hclosed Hd fuel. revert d Hd.
  induction fuel as [|fuel IH]; intros d Hd;
    destruct (Hclosed d Hd) as (p & Hp & HPp).
  - unfold previous_of in Hp. simpl.
    destruct (h !! d) as [c|]; [|done]. injection Hp as Hp. by rewrite Hp.
  - rewrite (get_first_component_step _ _ _ _ Hp). by apply IH.
Qed.

Lemma get_first_component_cycle_witness :
  get_first_component 1000 cycle 1%positive = Timeout.
Proof.
  apply (get_first_component_cycle cycle (λ x, x = 1%positive ∨ x = 2%positive)).
  - intros x [-> | ->].
    + exists 2%positive. split; [vm_compute; reflexivity | by right].
    + exists 1%positive. split; [vm_compute; reflexivity | by left].
  - by left.
Defined.

(** What a decorator leaves: the new component is added, at a reference
    that was free, to the store the wrapper reached, which is the store
    as it was for [transform] and the store the work function left for
    [source] and [sink]. *)
Lemma transform_new (f : PyFunc) (args : list value)
    (kwargs : list (string * value)) (w w1 : World) (l : loc) :
  transform f args kwargs w = (Ok l, w1) →
  ∃ c, objects w !! l = None
    ∧ objects w1 = <[l := c]> (objects w)
    ∧ name c = fname f ∧ func c = fid f ∧ next c = None ∧ previous c = None.
Proof.
  unfold transform, new. intros Hm. simplify_eq/=.
  eexists. split; [apply not_elem_of_dom, is_fresh|]. by repeat split.
Qed.

Lemma source_sink_new (f : PyFunc) (ty : string) (args : list value)
    (kwargs : list (string * value)) (w w1 : World) (l : loc) :
  source ty f args kwargs w = (Ok l, w1)
  ∨ sink ty f args kwargs w = (Ok l, w1) →
  ∃ c, (body f args kwargs (objects w)).2 !! l = None
    ∧ objects w1 = <[l := c]> (body f args kwargs (objects w)).2
    ∧ name c = fname f ∧ func c = fid f ∧ next c = None ∧ previous c = None.
Proof.
  intros [Hm | Hm];
    unfold source, sink, mbind, M_bind, invoke, new in Hm;
    destruct (body f args kwargs (objects w)) as [[v|e| |] h1]; simplify_eq/=;
    (eexists; split; [apply not_elem_of_dom, is_fresh|]; by repeat split).
Qed.

Lemma decorated_new (f : PyFunc) (ty : string) (args : list value)
    (kwargs : list (string * value)) (w w1 : World) (l : loc) :
  transform f args kwargs w = (Ok l, w1)
  ∨ source ty f args kwargs w = (Ok l, w1)
  ∨ sink ty f args kwargs w = (Ok l, w1) →
  ∃ c h0, h0 !! l = None
    ∧ objects w1 = <[l := c]> h0
    ∧ name c = fname f ∧ func c = fid f ∧ next c = None ∧ previous c = None.
Proof.
  intros [Hm | Hm].
  - destruct (transform_new _ _ _ _ _ _ Hm) as (c & ?). by exists c, (objects w).
  - destruct (source_sink_new _ _ _ _ _ _ _ Hm) as (c & ?). by eexists c, _.
Qed.

(** X7: calling a component made by a decorator runs the decorated
    function once, on the arguments of the call (those given at
    construction play no part) and on the store as it then is; the call
    returns, raises or runs on as the function does, and the store after
    it is the one the function left: [__call__] itself writes nothing. *)
Theorem call_component_calls_func (code : fref → option PyFunc) (f : PyFunc)
    (w w1 : World) (l : loc)
    (args args' : list value) (kwargs kwargs' : list (string * value))
    (ty : string) :
  code (fid f) = Some f →
  transform f args kwargs w = (Ok l, w1)
  ∨ source ty f args kwargs w = (Ok l, w1)
  ∨ sink ty f args kwargs w = (Ok l, w1) →
  call_component code l args' kwargs' w1
  = ((body f args' kwargs' (objects w1)).1,
     {| objects := (body f args' kwargs' (objects w1)).2;
        calls := calls w1 ++ [the_call f args' kwargs'] |}).
Proof.
  intros Hcode Hmade.
  destruct (decorated_new _ _ _ _ _ _ _ Hmade)
    as (c & h0 & _ & Ho & _ & Hfunc & _).
  unfold call_component.
  assert (Hl : objects w1 !! l = Some c) by (by rewrite Ho, lookup_insert_eq).
  rewrite Hl, Hfunc, Hcode.
  unfold invoke. by destruct (body f args' kwargs' (objects w1)).
Qed.

Lemma call_component_calls_func_witness :
  (call_component main_code 1%positive [VStr "a"] [("servers", VStr "b")]
     (source "kafka" read_from_kafka [VStr "users"; VStr "localhost:9092"] []
        empty_world).2).1
  = Ok (VDict [("topic", VStr "a"); ("bootstrap_servers", VStr "b")]).
Proof.
  rewrite (call_component_calls_func main_code read_from_kafka empty_world _ 1%positive
             [VStr "users"; VStr "localhost:9092"] [VStr "a"] []
             [("servers", VStr "b")] "kafka");
    [vm_compute; reflexivity | reflexivity | right; left; reflexivity].
Defined.

(** X19: a decorated function names its components after itself, not
    after the call: two calls of the same decorated function give two
    distinct, unlinked components of one and the same name.  The second
    construction leaves the first component as it was when the second
    wrapper is that of [transform], which does not run the function, and
    otherwise when the run of the function leaves that component alone. *)
Theorem decorated_twice_same_name (f : PyFunc) (ty ty' : string)
    (args args' : list value) (kwargs kwargs' : list (string * value))
    (w w1 w2 : World) (l1 l2 : loc) :
  transform f args kwargs w = (Ok l1, w1)
  ∨ source ty f args kwargs w = (Ok l1, w1)
  ∨ sink ty f args kwargs w = (Ok l1, w1) →
  transform f args' kwargs' w1 = (Ok l2, w2)
  ∨ (source ty' f args' kwargs' w1 = (Ok l2, w2)
     ∨ sink ty' f args' kwargs' w1 = (Ok l2, w2))
    ∧ (body f args' kwargs' (objects w1)).2 !! l1 = objects w1 !! l1 →
  l1 ≠ l2
  ∧ name_of (objects w2) l1 = Some (fname f)
  ∧ name_of (objects w2) l2 = Some (fname f)
  ∧ unlinked_at (objects w2) l1 ∧ unlinked_at (objects w2) l2
  ∧ objects w2 !! l1 = objects w1 !! l1.
Proof.
  intros H1 H2.
  destruct (decorated_new _ _ _ _ _ _ _ H1)
    as (c1 & h1 & _ & Ho1 & Hn1 & _ & Hx1 & Hp1).
  assert (Hl1 : objects w1 !! l1 = Some c1) by (by rewrite Ho1, lookup_insert_eq).
  assert (H2' : ∃ c2 h2, h2 !! l2 = None ∧ h2 !! l1 = Some c1
                  ∧ objects w2 = <[l2 := c2]> h2
                  ∧ name c2 = fname f ∧ next c2 = None ∧ previous c2 = None).
  { destruct H2 as [Ht | [Hs Hkeep]].
    - destruct (transform_new _ _ _ _ _ _ Ht) as (c2 & ? & ? & ? & _ & ? & ?).
      by exists c2, (objects w1).
    - destruct (source_sink_new _ _ _ _ _ _ _ Hs) as (c2 & ? & ? & ? & _ & ? & ?).
      eexists c2, _. rewrite Hl1 in Hkeep. done. }
  destruct H2' as (c2 & h2 & Hf2 & Hkeep & Ho2 & Hn2 & Hx2 & Hp2).
  assert (Hne : l1 ≠ l2) by (intros ->; congruence).
  assert (Hl1' : objects w2 !! l1 = Some c1)
    by (by rewrite Ho2, lookup_insert_ne).
  assert (Hl2 : objects w2 !! l2 = Some c2) by (by rewrite Ho2, lookup_insert_eq).
  unfold unlinked_at, name_of, next_of, previous_of.
  rewrite Hl1', Hl2, Hl1. simpl.
  rewrite Hn1, Hn2, Hx1, Hx2, Hp1, Hp2. done.
Qed.

Lemma decorated_twice_same_name_witness :
  1%positive ≠ 2%positive
  ∧ name_of (objects (source "kafka" read_from_kafka [VStr "b"; VStr "c"] []
                        (source "kafka" read_from_kafka [VStr "a"; VStr "c"] []
                           empty_world).2).2)
      1%positive = Some (fname read_from_kafka).
Proof.
  destruct (decorated_twice_same_name read_from_kafka "kafka" "kafka"
              [VStr "a"; VStr "c"] [VStr "b"; VStr "c"] [] []
              empty_world
              (source "kafka" read_from_kafka [VStr "a"; VStr "c"] [] empty_world).2
              (source "kafka" read_from_kafka [VStr "b"; VStr "c"] []
                 (source "kafka" read_from_kafka [VStr "a"; VStr "c"] []
                    empty_world).2).2
              1%positive 2%positive) as (Hne & Hn & _);
    [right; left; reflexivity | right; split; [left; reflexivity | reflexivity] |].
  split; [exact Hne | exact Hn].
Defined.

End DecoratorsMore.

(** ** Validation and graph building *)

Module OrchestratorMore.
Import Decorators Orchestrator Main DecoratorsFacts OrchestratorFacts DecoratorsMore.

Local Ltac chain_by_compute := split; [done | vm_compute; repeat split].

#[local] Set Warnings "-clear-no-such-hyp".

(** *** Which chains validate *)

Lemma first_bad_pair_sink (r : list string) :
  first_bad_pair "sink" r = None → r = [].
Proof.
  destruct r as [|c r]; [done|]. cbn [first_bad_pair].
  rewrite decide_False; [done|]. by intros [[?|?] _].
Qed.

Lemma no_bad_pair_shape (ks : list string) :
  ∀ p, p = "source" ∨ p = "transform" →
    first_bad_pair p ks = None → last (p :: ks) = Some "sink" →
    ∃ n, ks = replicate n "transform" ++ ["sink"].
Proof.
  induction ks as [|k r IH]; intros p Hp Hbad Hlast.
  - simpl in Hlast. destruct Hp; simplify_eq.
  - cbn [first_bad_pair] in Hbad. case_decide as Hal; [|done].
    destruct Hal as [_ [-> | ->]].
    + destruct (IH "transform") as [n ->]; [by right|done|done|].
      by exists (S n).
    + apply first_bad_pair_sink in Hbad as ->. by exists 0.
Qed.

Lemma structural_error_None_shape (ks : list string) :
  ks ≠ [] → structural_error ks = None →
  ∃ n, ks = "source" :: replicate n "transform" ++ ["sink"].
Proof.
  destruct ks as [|k r]; [done|]. intros _. unfold structural_error.
  destruct (decide (k ≠ "source")) as [Hk|Hk]; [done|].
  apply dec_stable in Hk. subst k.
  destruct (first_bad_pair "source" r) as [[p c]|] eqn:Hbad; [done|].
  destruct (decide (last ("source" :: r) ≠ Some "sink")) as [Hlast|Hlast]; [done|].
  apply dec_stable in Hlast. intros _.
  destruct (no_bad_pair_shape r "source") as [n ->]; [by left|done|done|].
  by exists n.
Qed.

Lemma structural_error_valid (n : nat) :
  structural_error ("source" :: replicate n "transform" ++ ["sink"]) = None
  ∧ visited ("source" :: replicate n "transform" ++ ["sink"]) = n + 2.
Proof.
  unfold structural_error, visited.
  rewrite !decide_False by (by intros []).
  destruct (first_bad_pair_transforms n "source" ["sink"]) as [-> ->]; [by left|].
  assert (Hsink : first_bad_pair (match n with 0 => "source" | S _ => "transform" end)
                    ["sink"] = None
                  ∧ legal_prefix (match n with 0 => "source" | S _ => "transform" end)
                    ["sink"] = 1) by (by destruct n).
  destruct Hsink as [-> ->].
  split; [|rewrite decide_False by (by intros []); lia].
  rewrite decide_False; [done|]. intros Hl. apply Hl.
  change ("source" :: replicate n "transform" ++ ["sink"])
    with (("source" :: replicate n "transform") ++ ["sink"]).
  apply last_snoc.
Qed.

(** X8: [validate_pipeline] accepts nothing but Source, Transform, …,
    Transform, Sink: when it returns without raising on a chain, the chain
    has at least two components, its types are [source], then only
    [transform]s, then [sink], and every component was appended. *)
Theorem validate_pipeline_Ok_shape (h : heap) (l : list loc) (entry_point : loc)
    (fuel : nat) (o : PipelineOrchestrator) :
  chain h l → entry_point ∈ l → length l ≤ fuel →
  validate_rules o = default_rules →
  (validate_pipeline fuel h entry_point o).1 = Ok tt →
  (∃ n, kinds h l = "source" :: replicate n "transform" ++ ["sink"])
  ∧ 2 ≤ length l
  ∧ components (validate_pipeline fuel h entry_point o).2 = components o ++ l.
Proof.
  intros Hchain Hentry Hfuel Hrules Hok.
  rewrite (validate_pipeline_default h l) in Hok |- * by done.
  cbn [fst snd] in *.
  destruct (structural_error (kinds h l)) as [e|] eqn:He; [done|].
  destruct (structural_error_None_shape (kinds h l)) as [n Hn]; [|done|].
  { destruct Hchain as [Hne _]. by destruct l. }
  assert (Hlen : length l = n + 2).
  { rewrite <-(length_fmap (kind h) l). fold (kinds h l). rewrite Hn.
    simpl. rewrite length_app, length_replicate. simpl. lia. }
  split; [by exists n|]. split; [lia|].
  rewrite (structural_error_None_visited _ He).
  unfold kinds. by rewrite length_fmap, firstn_all.
Qed.

Lemma validate_pipeline_Ok_shape_witness :
  (∃ n, kinds demo [1; 2; 3]%positive = "source" :: replicate n "transform" ++ ["sink"])
  ∧ 2 ≤ length [1; 2; 3]%positive
  ∧ components (validate_pipeline 3 demo 3%positive new_orchestrator).2
    = components new_orchestrator ++ [1; 2; 3]%positive.
Proof.
  apply (validate_pipeline_Ok_shape demo [1; 2; 3]%positive 3%positive 3
           new_orchestrator);
    [chain_by_compute | compute_done | simpl; lia | reflexivity
    | vm_compute; reflexivity].
Defined.

(** *** What validation leaves alone *)

Lemma validate_connection_state (h : heap) (p c : loc) (o : PipelineOrchestrator) :
  (_validate_connection h p c o).2 = o.
Proof.
  unfold _validate_connection, mbind, M_bind, deref, get.
  destruct (h !! p) as [cp|]; [|done]. simpl.
  destruct (h !! c) as [cc|]; [|done]. simpl.
  destruct (validate_rules o !! component_type cp) as [allowed|]; [|done].
  by case_decide.
Qed.

Lemma walk_extends (h : heap) (fuel : nat) :
  ∀ (current : option loc) (o : PipelineOrchestrator),
    ∃ v, (walk fuel h current o).2 = extend o v.
Proof.
  induction fuel as [|fuel IH]; intros [cur|] o;
    try (exists []; by rewrite extend_nil).
  cbn [walk]. unfold mbind, M_bind at 1. unfold deref.
  destruct (h !! cur) as [c|]; [|exists []; by rewrite extend_nil].
  cbn -[walk _validate_connection].
  unfold mbind, M_bind at 1.
  assert (Hstep : ∀ m : Orch unit, (m o).2 = o →
            ∃ v, (match m o with
                  | (Ok a, s') => (λ _, modify (append cur) ≫= λ _, walk fuel h (next c)) a s'
                  | (Raise e, s') => (Raise e, s')
                  | (Stuck, s') => (Stuck, s')
                  | (Timeout, s') => (Timeout, s')
                  end).2 = extend o v).
  { intros m Hm. destruct (m o) as [[[]| | |] s']; simpl in Hm; subst s';
      try (exists []; by rewrite extend_nil).
    unfold mbind, M_bind, modify. cbn -[walk].
    destruct (IH (next c) (append cur o)) as [v Hv].
    exists (cur :: v). by rewrite Hv, extend_append. }
  destruct (previous c) as [p|].
  - apply Hstep, validate_connection_state.
  - by apply Hstep.
Qed.

(** X9: on any store, whether it returns, raises or runs on,
    [validate_pipeline] only appends to [components]: what the list held
    stays at its front, and [execution_graph] and [validate_rules] are not
    written. *)
Theorem validate_pipeline_only_appends (h : heap) (entry_point : loc)
    (fuel : nat) (o : PipelineOrchestrator) :
  components o `prefix_of` components (validate_pipeline fuel h entry_point o).2
  ∧ execution_graph (validate_pipeline fuel h entry_point o).2 = execution_graph o
  ∧ validate_rules (validate_pipeline fuel h entry_point o).2 = validate_rules o.
Proof.
  assert (Hext : ∃ v, (validate_pipeline fuel h entry_point o).2 = extend o v).
  { unfold validate_pipeline, mbind, M_bind at 1.
    destruct (get_first_component fuel h entry_point) as [first| | |];
      try (exists []; by rewrite extend_nil).
    unfold mbind, M_bind at 1. unfold deref.
    destruct (h !! first) as [c|]; [|exists []; by rewrite extend_nil].
    cbn -[walk]. case_decide; [exists []; by rewrite extend_nil|].
    unfold mbind, M_bind at 1.
    destruct (walk_extends h fuel (Some first) o) as [v Hv].
    destruct (walk fuel h (Some first) o) as [[[]| | |] o1]; simpl in Hv; subst o1;
      try by exists v.
    unfold mbind, M_bind, get. cbn -[last].
    destruct (last (components o ++ v)) as [z|]; [|by exists v].
    destruct (h !! z) as [cz|]; [|by exists v]. simpl.
    case_decide; by exists v. }
  destruct Hext as [v ->]. simpl.
  split; [by apply prefix_app_r|done].
Qed.

(** *** The entry point *)

(** X10: the component handed to [validate_pipeline] only serves to find
    the head: from any two members of one chain the outcome and the
    orchestrator reached are the same. *)
Theorem validate_pipeline_entry_independent (h : heap) (l : list loc)
    (e1 e2 : loc) (fuel : nat) (o : PipelineOrchestrator) :
  chain h l → e1 ∈ l → e2 ∈ l → length l ≤ fuel →
  validate_pipeline fuel h e1 o = validate_pipeline fuel h e2 o.
Proof.
  intros Hchain He1 He2 Hfuel.
  by rewrite !(validate_pipeline_chain h l).
Qed.

Lemma validate_pipeline_entry_independent_witness :
  validate_pipeline 3 demo 1%positive new_orchestrator
  = validate_pipeline 3 demo 3%positive new_orchestrator.
Proof.
  apply (validate_pipeline_entry_independent demo [1; 2; 3]%positive);
    [chain_by_compute | compute_done | compute_done | simpl; lia].
Defined.

Lemma validate_pipeline_same_first (h : heap) (e1 e2 : loc) (fuel : nat)
    (o : PipelineOrchestrator) :
  get_first_component fuel h e1 = get_first_component fuel h e2 →
  validate_pipeline fuel h e1 o = validate_pipeline fuel h e2 o.
Proof. intros Heq. unfold validate_pipeline, mbind, M_bind at 1 3. by rewrite Heq. Qed.

(** X11: a component left behind by a later link (its [previous] still
    points into a chain that no longer leads to it) can be handed to
    [validate_pipeline]: the chain its [previous] points into is
    validated, and only components of that chain are appended. *)
Theorem validate_pipeline_from_outside (h : heap) (l : list loc) (e x : loc)
    (fuel : nat) (o : PipelineOrchestrator) :
  chain h l → x ∈ l → previous_of h e = Some (Some x) → length l < fuel →
  validate_pipeline fuel h e o = validate_pipeline fuel h x o
  ∧ ∃ v, v `prefix_of` l
      ∧ components (validate_pipeline fuel h e o).2 = components o ++ v.
Proof.
  intros Hchain Hx He Hfuel.
  assert (Heq : validate_pipeline fuel h e o = validate_pipeline fuel h x o).
  { apply validate_pipeline_same_first.
    destruct (get_first_component_on_chain h l x Hchain Hx) as (hd & _ & Hfirst & _).
    destruct fuel as [|fuel]; [lia|].
    rewrite (get_first_component_step _ _ _ _ He).
    rewrite !Hfirst by lia. done. }
  split; [done|]. rewrite Heq.
  rewrite (validate_pipeline_chain h l) by (done || lia).
  eexists. split; [apply prefix_take|done].
Qed.

Lemma validate_pipeline_from_outside_witness :
  validate_pipeline 3 bypassed 3%positive new_orchestrator
  = validate_pipeline 3 bypassed 1%positive new_orchestrator
  ∧ ∃ v, v `prefix_of` [1; 2]%positive
      ∧ components (validate_pipeline 3 bypassed 3%positive new_orchestrator).2
        = components new_orchestrator ++ v.
Proof.
  apply (validate_pipeline_from_outside bypassed [1; 2]%positive 3%positive 1%positive);
    [chain_by_compute | compute_done | vm_compute; reflexivity | simpl; lia].
Defined.

(** *** One connection *)

(** X12: [_validate_connection] with the table of [__init__], on any two
    components: it returns when the pair is in the allowed-successor
    table, raises the invalid-sequence [ValueError] naming both types
    when the first type is a key of the table and the pair is not
    allowed, and raises [KeyError] on the first type when that is none of
    [source], [transform], [sink]; it never writes the orchestrator. *)
Theorem validate_connection_cases (h : heap) (p c : loc)
    (cp cc : PipelineComponent) (o : PipelineOrchestrator) :
  h !! p = Some cp → h !! c = Some cc →
  validate_rules o = default_rules →
  (_validate_connection h p c o).2 = o
  ∧ (allowed_successor (component_type cp) (component_type cc) →
     (_validate_connection h p c o).1 = Ok tt)
  ∧ (known (component_type cp) →
     ¬ allowed_successor (component_type cp) (component_type cc) →
     (_validate_connection h p c o).1
     = Raise (ValueError (invalid_sequence (component_type cp) (component_type cc))))
  ∧ (¬ known (component_type cp) →
     (_validate_connection h p c o).1 = Raise (KeyError (component_type cp))).
Proof.
  intros Hp Hc Hrules.
  split; [apply validate_connection_state|].
  rewrite validate_connection_kinds by (by eexists).
  rewrite Hrules, <-(kind_lookup _ _ _ Hp), <-(kind_lookup _ _ _ Hc).
  cbn [fst]. split; [|split].
  - intros Hal. rewrite check_connection_default.
    + by rewrite decide_True.
    + destruct Hal as [[?|?] _]; unfold known; tauto.
  - intros Hk Hbad. rewrite check_connection_default by done.
    by rewrite decide_False.
  - intros Hk. unfold check_connection, default_rules.
    rewrite !lookup_insert_ne, lookup_empty; [done|..];
      intros Heq; apply Hk; unfold known; rewrite <-Heq; tauto.
Qed.

Lemma validate_connection_cases_witness :
  (_validate_connection demo 3%positive 2%positive new_orchestrator).1
  = Raise (ValueError (invalid_sequence "sink" "transform")).
Proof.
  destruct (demo !! 3%positive) as [cp|] eqn:Hp; [|by vm_compute in Hp].
  destruct (demo !! 2%positive) as [cc|] eqn:Hc; [|by vm_compute in Hc].
  assert (Htp : component_type cp = "sink").
  { apply (f_equal (fmap component_type)) in Hp. vm_compute in Hp. by injection Hp. }
  assert (Htc : component_type cc = "transform").
  { apply (f_equal (fmap component_type)) in Hc. vm_compute in Hc. by injection Hc. }
  destruct (validate_connection_cases demo 3%positive 2%positive cp cc new_orchestrator
              Hp Hc eq_refl) as (_ & _ & Hbad & _).
  rewrite Htp, Htc in Hbad. apply Hbad.
  - right; right. reflexivity.
  - by intros [[?|?] _].
Defined.

(** *** A cycle *)

Lemma walk_self_loop (h : heap) (x : loc) (c : PipelineComponent) :
  h !! x = Some c → next c = Some x → previous c = Some x →
  component_type c = "transform" →
  ∀ (fuel : nat) (o : PipelineOrchestrator),
    validate_rules o = default_rules →
    walk fuel h (Some x) o = (Timeout, extend o (replicate fuel x)).
Proof.
  intros Hx Hn Hp Hty fuel.
  induction fuel as [|fuel IH]; intros o Hrules.
  - simpl. by rewrite extend_nil.
  - cbn [walk]. unfold mbind, M_bind at 1. rewrite (deref_Some _ _ _ _ Hx).
    rewrite Hp, Hn. unfold mbind, M_bind at 1.
    rewrite validate_connection_kinds by (by eexists).
    rewrite Hrules, <-(kind_lookup _ _ _ Hx), Hty.
    rewrite check_connection_default by (right; by left).
    rewrite decide_True by (split; [by right|by left]).
    unfold mbind, M_bind, modify. rewrite IH by done.
    by rewrite extend_append.
Qed.

(** X13: a source followed by a transform that is its own successor (as
    [s >> t] and then [t >> t] leave them): [validate_pipeline] never
    returns, and each turn of its loop appends the transform once more. *)
Theorem validate_pipeline_self_loop (h : heap) (s x : loc)
    (cs cx : PipelineComponent) (o : PipelineOrchestrator) :
  h !! s = Some cs → previous cs = None → next cs = Some x →
  component_type cs = "source" →
  h !! x = Some cx → next cx = Some x → previous cx = Some x →
  component_type cx = "transform" →
  validate_rules o = default_rules →
  ∀ fuel, validate_pipeline (S fuel) h s o
          = (Timeout, extend o (s :: replicate fuel x)).
Proof.
  intros Hs Hps Hns Hts Hx Hnx Hpx Htx Hrules fuel.
  unfold validate_pipeline, mbind, M_bind at 1.
  rewrite get_first_component_head
    by (unfold previous_of; rewrite Hs; simpl; by rewrite Hps).
  unfold mbind, M_bind at 1. rewrite (deref_Some _ _ _ _ Hs), Hts.
  rewrite decide_False by (by intros []).
  unfold mbind, M_bind at 1.
  cbn [walk]. unfold mbind, M_bind at 1. rewrite (deref_Some _ _ _ _ Hs).
  rewrite Hps, Hns. unfold mbind, M_bind at 1 2. unfold modify at 1. simpl fst.
  cbn -[walk].
  rewrite (walk_self_loop h x cx Hx Hnx Hpx Htx fuel (append s o)) by done.
  by rewrite extend_append.
Qed.

Lemma validate_pipeline_self_loop_witness :
  validate_pipeline 5 self_loop 1%positive new_orchestrator
  = (Timeout, extend new_orchestrator (1%positive :: replicate 4 3%positive)).
Proof.
  destruct (self_loop !! 1%positive) as [cs|] eqn:Hs; [|by vm_compute in Hs].
  destruct (self_loop !! 3%positive) as [cx|] eqn:Hx; [|by vm_compute in Hx].
  apply (validate_pipeline_self_loop self_loop 1%positive 3%positive cs cx);
    try done.
  - apply (f_equal (fmap previous)) in Hs. vm_compute in Hs. by injection Hs.
  - apply (f_equal (fmap next)) in Hs. vm_compute in Hs. by injection Hs.
  - apply (f_equal (fmap component_type)) in Hs. vm_compute in Hs. by injection Hs.
  - apply (f_equal (fmap next)) in Hx. vm_compute in Hx. by injection Hx.
  - apply (f_equal (fmap previous)) in Hx. vm_compute in Hx. by injection Hx.
  - apply (f_equal (fmap component_type)) in Hx. vm_compute in Hx. by injection Hx.
Defined.

(** *** From construction to validation *)

(** X14: distinct new components of types [source], [transform] (any
    number), [sink], chained from left to right with [>>], validate from
    any of them: [validate_pipeline] returns and appends all of them in
    the order they were chained. *)
Theorem chained_pipeline_validates (h : heap) (l : list loc) (n : nat)
    (entry_point : loc) (fuel : nat) (o : PipelineOrchestrator) :
  NoDup l → Forall (unlinked_at h) l →
  kinds h l = "source" :: replicate n "transform" ++ ["sink"] →
  entry_point ∈ l → length l ≤ fuel →
  validate_rules o = default_rules →
  validate_pipeline fuel (links (chained l) h) entry_point o = (Ok tt, extend o l).
Proof.
  intros Hnd Hall Hkinds Hentry Hfuel Hrules.
  assert (Hne : l ≠ []) by (intros ->; by apply elem_of_nil in Hentry).
  rewrite (validate_pipeline_default _ l) by (done || by apply links_chained_chain).
  assert (Hk : kinds (links (chained l) h) l = kinds h l).
  { unfold kinds. apply list_fmap_ext. intros i x _. apply links_kind. }
  rewrite Hk, Hkinds.
  destruct (structural_error_valid n) as [-> ->].
  simpl. rewrite take_ge; [done|].
  rewrite <-(length_fmap (kind h) l). fold (kinds h l). rewrite Hkinds.
  simpl. rewrite length_app, length_replicate. simpl. lia.
Qed.

Lemma chained_pipeline_validates_witness :
  validate_pipeline 3 (links (chained [1; 3; 2]%positive) unlinked) 2%positive
    new_orchestrator
  = (Ok tt, extend new_orchestrator [1; 3; 2]%positive).
Proof.
  apply (chained_pipeline_validates unlinked [1; 3; 2]%positive 1);
    [compute_done | | vm_compute; reflexivity | compute_done | simpl; lia | reflexivity].
  repeat constructor; vm_compute; reflexivity.
Defined.

(** *** The graph *)

Lemma graph_of_snoc (h : heap) (g : gmap string entry) (cs : list loc) (x : loc) :
  graph_of h g (cs ++ [x]) = <[name_at h x := entry_of h x]> (graph_of h g cs).
Proof. unfold graph_of. by rewrite foldl_app. Qed.

Lemma graph_of_dom (h : heap) (g : gmap string entry) (cs : list loc) :
  dom (graph_of h g cs) = dom g ∪ list_to_set (name_at h <$> cs).
Proof.
  induction cs as [|x cs IH] using rev_ind.
  - simpl. set_solver.
  - rewrite graph_of_snoc, dom_insert_L, IH, fmap_app, list_to_set_app_L.
    simpl. set_solver.
Qed.

Lemma graph_of_absorb (h : heap) (g : gmap string entry) (cs : list loc) :
  graph_of h (graph_of h g cs) cs = graph_of h g cs.
Proof.
  apply map_eq. intros k. rewrite graph_of_lookup.
  destruct (last (filter (λ l, name_at h l = k) cs)) as [d|] eqn:Hlast; [|done].
  by rewrite graph_of_lookup, Hlast.
Qed.

Lemma size_list_to_set_le (ns : list string) :
  size (list_to_set ns : gset string) ≤ length ns.
Proof.
  induction ns as [|a ns IH].
  - by rewrite list_to_set_nil, size_empty.
  - rewrite list_to_set_cons, size_union_alt, size_singleton. cbn [length].
    assert (size (list_to_set ns ∖ {[a]} : gset string) ≤ size (list_to_set ns : gset string)).
    { apply subseteq_size. set_solver. }
    lia.
Qed.

(** X15: building the graph again, with nothing changed in between, gives
    the same graph and leaves the orchestrator as the first build left
    it. *)
Theorem build_execution_graph_idempotent (h : heap) (o : PipelineOrchestrator) :
  buildable h (components o) →
  build_execution_graph h (build_execution_graph h o).2 = build_execution_graph h o.
Proof.
  intros Hb. rewrite (build_execution_graph_spec h o Hb). cbn [snd].
  rewrite build_execution_graph_spec by done.
  unfold with_graph. simpl. by rewrite graph_of_absorb.
Qed.

Lemma build_execution_graph_idempotent_witness :
  build_execution_graph demo
    (build_execution_graph demo (extend new_orchestrator [1; 2; 3]%positive)).2
  = build_execution_graph demo (extend new_orchestrator [1; 2; 3]%positive).
Proof.
  apply build_execution_graph_idempotent.
  repeat constructor; try compute_done;
    intros n Hn; vm_compute in Hn; simplify_eq; compute_done.
Defined.

(** X16: the keys of the graph that [build_execution_graph] returns are
    the keys the graph had before together with the names of the listed
    components: nothing is ever removed, an old record under another name
    stays as it is, and the graph gains at most one record per component,
    exactly one each when it was empty and the names are distinct. *)
Theorem build_execution_graph_keys (h : heap) (o : PipelineOrchestrator) :
  buildable h (components o) →
  ∃ g, (build_execution_graph h o).1 = Ok g
    ∧ execution_graph (build_execution_graph h o).2 = g
    ∧ components (build_execution_graph h o).2 = components o
    ∧ dom g = dom (execution_graph o) ∪ list_to_set (name_at h <$> components o)
    ∧ (∀ k, k ∉ name_at h <$> components o → g !! k = execution_graph o !! k)
    ∧ size g ≤ size (execution_graph o) + length (components o)
    ∧ (execution_graph o = ∅ → NoDup (name_at h <$> components o) →
       size g = length (components o)).
Proof.
  intros Hb. rewrite (build_execution_graph_spec h o Hb). cbn [fst snd].
  eexists. split; [done|]. split; [done|]. split; [done|].
  assert (Hdom := graph_of_dom h (execution_graph o) (components o)).
  split; [done|]. split; [|split].
  - intros k Hk. rewrite graph_of_lookup.
    rewrite (filter_name_absent (name_at h) _ k Hk). done.
  - rewrite <-!size_dom, Hdom, size_union_alt.
    apply Nat.add_le_mono_l.
    etrans; [apply (subseteq_size _ (list_to_set (name_at h <$> components o)));
             set_solver|].
    rewrite <-(length_fmap (name_at h) (components o)).
    apply size_list_to_set_le.
  - intros Hempty Hnd. rewrite <-size_dom, Hdom, Hempty, dom_empty_L, (left_id_L ∅ (∪)).
    rewrite size_list_to_set by done. apply length_fmap.
Qed.

Lemma build_execution_graph_keys_witness :
  ∃ g, (build_execution_graph demo (extend new_orchestrator [1; 2; 3]%positive)).1 = Ok g
    ∧ size g = 3.
Proof.
  destruct (build_execution_graph_keys demo (extend new_orchestrator [1; 2; 3]%positive))
    as (g & Hg & _ & _ & _ & _ & _ & Hsize).
  - repeat constructor; try compute_done;
      intros n Hn; vm_compute in Hn; simplify_eq; compute_done.
  - exists g. split; [done|]. rewrite Hsize; [done|done|compute_done].
Defined.

Lemma size_list_to_set_NoDup (ns : list string) :
  size (list_to_set ns : gset string) = length ns → NoDup ns.
Proof.
  induction ns as [|a ns IH]; [constructor|].
  rewrite list_to_set_cons, size_union_alt, size_singleton. cbn [length].
  intros Hsize.
  pose proof (size_list_to_set_le ns) as Hle.
  assert (Hsub : size (list_to_set ns ∖ {[a]} : gset string)
                 ≤ size (list_to_set ns : gset string)).
  { apply subseteq_size. set_solver. }
  apply NoDup_cons. split; [|apply IH; lia].
  intros Ha.
  assert (Heq : (list_to_set ns : gset string) = {[a]} ∪ (list_to_set ns ∖ {[a]})).
  { apply set_eq. intros x. rewrite elem_of_union, elem_of_difference, elem_of_singleton.
    destruct (decide (x = a)) as [->|Hne]; [|tauto].
    split; [by left|]. intros _. by apply elem_of_list_to_set. }
  rewrite Heq in Hle at 1.
  rewrite size_union, size_singleton in Hle by set_solver. lia.
Qed.

(** X17: two listed components of the same name share one key: built
    from an empty graph, the graph then has fewer records than there are
    components. *)
Theorem build_execution_graph_collapses (h : heap) (o : PipelineOrchestrator)
    (i j : nat) (a b : loc) :
  buildable h (components o) → execution_graph o = ∅ →
  components o !! i = Some a → components o !! j = Some b → i ≠ j →
  name_at h a = name_at h b →
  ∃ g, (build_execution_graph h o).1 = Ok g ∧ size g < length (components o).
Proof.
  intros Hb Hempty Hi Hj Hij Hname.
  rewrite (build_execution_graph_spec h o Hb). cbn [fst].
  eexists. split; [done|].
  rewrite <-size_dom, graph_of_dom, Hempty, dom_empty_L, (left_id_L ∅ (∪)).
  pose proof (size_list_to_set_le (name_at h <$> components o)) as Hle.
  rewrite length_fmap in Hle.
  destruct (decide (size (list_to_set (name_at h <$> components o) : gset string)
                    = length (components o))) as [Heq|Hne]; [|lia].
  rewrite <-(length_fmap (name_at h)) in Heq.
  apply size_list_to_set_NoDup in Heq.
  destruct Hij. apply (proj1 (NoDup_alt _) Heq i j (name_at h a)).
  - by rewrite list_lookup_fmap, Hi.
  - by rewrite list_lookup_fmap, Hj, Hname.
Qed.

Lemma build_execution_graph_collapses_witness :
  ∃ g, (build_execution_graph demo
          (extend new_orchestrator [1; 2; 3; 1; 2; 3]%positive)).1 = Ok g
    ∧ size g < length [1; 2; 3; 1; 2; 3]%positive.
Proof.
  apply (build_execution_graph_collapses demo
           (extend new_orchestrator [1; 2; 3; 1; 2; 3]%positive) 0 3
           1%positive 1%positive);
    [|done..].
  repeat constructor; try compute_done;
    intros n Hn; vm_compute in Hn; simplify_eq; compute_done.
Defined.

(** X18: validate-then-build, as [main.py] runs it on a new orchestrator,
    on a chain Source, Transform…, Sink with distinct names: it returns a
    graph of exactly as many records as components, and the record under
    each component's name holds that component's type, its config, the
    component itself, and as [next] the name of the component that
    follows it in the chain ([None] for the last). *)
Theorem validate_and_build_graph (h : heap) (l : list loc) (entry_point : loc)
    (fuel n : nat) :
  chain h l → entry_point ∈ l → length l ≤ fuel →
  kinds h l = "source" :: replicate n "transform" ++ ["sink"] →
  NoDup (name_at h <$> l) →
  ∃ g o',
    validate_and_build fuel h entry_point new_orchestrator = (Ok g, o')
    ∧ components o' = l ∧ execution_graph o' = g
    ∧ size g = n + 2
    ∧ ∀ (i : nat) d, l !! i = Some d →
        ∃ e, g !! name_at h d = Some e
          ∧ e !! "type" = Some (VStr (kind h d))
          ∧ e !! "next"
            = Some (match l !! S i with
                    | Some nx => VStr (name_at h nx)
                    | None => VNone
                    end)
          ∧ e !! "component" = Some (VObj d)
          ∧ (∀ c, h !! d = Some c → e !! "config" = Some (config c)).
Proof.
  intros Hchain Hentry Hfuel Hkinds Hnd.
  assert (Hlen : length l = n + 2).
  { rewrite <-(length_fmap (kind h) l). fold (kinds h l). rewrite Hkinds.
    simpl. rewrite length_app, length_replicate. simpl. lia. }
  assert (Hval : validate_pipeline fuel h entry_point new_orchestrator
                 = (Ok tt, extend new_orchestrator l)).
  { rewrite (validate_pipeline_default h l) by done. rewrite Hkinds.
    destruct (structural_error_valid n) as [-> ->].
    simpl. rewrite take_ge; [done|lia]. }
  assert (Hb : buildable h (components (extend new_orchestrator l))).
  { simpl. by apply chain_buildable. }
  unfold validate_and_build, mbind, M_bind. rewrite Hval.
  rewrite (build_execution_graph_spec _ _ Hb).
  eexists _, _. split; [done|]. split; [done|]. split; [done|]. split.
  - simpl. rewrite <-size_dom, graph_of_dom, dom_empty_L, (left_id_L ∅ (∪)).
    rewrite size_list_to_set by done. by rewrite length_fmap.
  - intros i d Hd. exists (entry_of h d). split.
    + simpl. rewrite graph_of_lookup.
      rewrite (filter_name_unique (name_at h) l d Hnd); [done|].
      apply list_elem_of_lookup. by exists i.
    + by apply (entry_of_fields h l).
Qed.

Lemma validate_and_build_graph_witness :
  ∃ g o',
    validate_and_build 3 demo 3%positive new_orchestrator = (Ok g, o')
    ∧ components o' = [1; 2; 3]%positive ∧ execution_graph o' = g
    ∧ size g = 1 + 2
    ∧ ∀ (i : nat) d, [1; 2; 3]%positive !! i = Some d →
        ∃ e, g !! name_at demo d = Some e
          ∧ e !! "type" = Some (VStr (kind demo d))
          ∧ e !! "next"
            = Some (match [1; 2; 3]%positive !! S i with
                    | Some nx => VStr (name_at demo nx)
                    | None => VNone
                    end)
          ∧ e !! "component" = Some (VObj d)
          ∧ (∀ c, demo !! d = Some c → e !! "config" = Some (config c)).
Proof.
  apply (validate_and_build_graph demo [1; 2; 3]%positive 3%positive 3 1);
    [chain_by_compute | compute_done | simpl; lia | vm_compute; reflexivity
    | compute_done].
Defined.

End OrchestratorMore.
